(** * Read-aloud markdown reader: narration/highlight synchronisation

    A shallow embedding of the TypeScript sources

    - [ReaderView] in [src/components/ReaderView.tsx]: the tokenizer
      [tokenizedContent];
    - [MarkdownViewer] in [src/unnamed/part_000]: the highlight effect over
      the rendered DOM;
    - [App] in [src/components/GeminiPanel.tsx], after the Gemini panel:
      the narration controls around [window.speechSynthesis];

    followed by the properties of the specification that concern them. *)

From Equations Require Import Equations.
From Stdlib Require Import String Ascii.
From Stdlib Require Import List Arith ZArith NArith Lia Bool QArith.
Import ListNotations.
Close Scope Q_scope.

(** ** JavaScript strings

    A JavaScript string is a sequence of UTF-16 code units; [length],
    [substring] and regular expressions without the [u] flag all count code
    units. *)

Definition code_unit := N.
Definition jsstring := list code_unit.

(** Code units of an ASCII literal. *)
Definition js (s : String.string) : jsstring :=
  map N_of_ascii (String.list_ascii_of_string s).
Arguments js s%_string.

(** The class [\s] of ECMAScript regular expressions (WhiteSpace and
    LineTerminator); [String.prototype.trim] strips the same set. *)
Definition is_space (c : code_unit) : bool :=
  ((9 <=? c) && (c <=? 13)          (* TAB LF VT FF CR *)
   || (c =? 32)                     (* SPACE *)
   || (c =? 160)                    (* NBSP *)
   || (c =? 5760)                   (* U+1680 *)
   || ((8192 <=? c) && (c <=? 8202))(* U+2000 .. U+200A *)
   || (c =? 8232) || (c =? 8233)    (* LS PS *)
   || (c =? 8239) || (c =? 8287)    (* U+202F U+205F *)
   || (c =? 12288)                  (* U+3000 *)
   || (c =? 65279))%N.              (* U+FEFF *)

(** The class [\S]. *)
Definition is_nonspace (c : code_unit) : bool := negb (is_space c).

(** The class [\w]: [A-Za-z0-9_]. *)
Definition is_word_char (c : code_unit) : bool :=
  ((48 <=? c) && (c <=? 57)
   || (65 <=? c) && (c <=? 90)
   || (c =? 95)
   || (97 <=? c) && (c <=? 122))%N.

(** Longest prefix whose code units all satisfy [p]: what a greedy
    [p+] or [p*] consumes at the start of a string. *)
Fixpoint take_while (p : code_unit -> bool) (s : jsstring) : jsstring :=
  match s with
  | c :: s' => if p c then c :: take_while p s' else []
  | [] => []
  end.

Fixpoint drop_while (p : code_unit -> bool) (s : jsstring) : jsstring :=
  match s with
  | c :: s' => if p c then drop_while p s' else s
  | [] => []
  end.

(** [s.substring(a)] and [s.substring(a, b)] on integer arguments: both
    ends are clamped to [0 .. s.length] and swapped when out of order. *)
Definition clamp (len : nat) (i : Z) : nat :=
  Nat.min (Z.to_nat i) len.

Definition substring_from (s : jsstring) (a : Z) : jsstring :=
  skipn (clamp (length s) a) s.

Definition substring (s : jsstring) (a b : Z) : jsstring :=
  let a' := clamp (length s) a in
  let b' := clamp (length s) b in
  let lo := Nat.min a' b' in
  let hi := Nat.max a' b' in
  firstn (hi - lo) (skipn lo s).

(** [s.trim()]. *)
Definition trim (s : jsstring) : jsstring :=
  rev (drop_while is_space (rev (drop_while is_space s))).

(** Truthiness of a string: non-empty. *)
Definition truthy (s : jsstring) : bool :=
  match s with [] => false | _ => true end.

(** The guard [!s.trim()]. *)
Definition blank (s : jsstring) : bool := negb (truthy (trim s)).

(** ** Tokenizer ([ReaderView], [tokenizedContent]) *)

Module Tokenizer.

Record Token := mkToken {
  text : jsstring;
  index : nat;
  isWord : bool
}.

(** [wordRegex.exec(content)] for [wordRegex = /\S+/g] whose [lastIndex]
    is [lastIndex]: the search starts at [lastIndex], skips to the first
    non-space code unit and matches the maximal run of non-space code
    units; the result is [match.index] and [match[0]].  [None] is [null]. *)
Definition exec_word (content : jsstring) (lastIndex : nat)
  : option (nat * jsstring) :=
  let rest := skipn lastIndex content in
  let skipped := take_while is_space rest in
  match take_while is_nonspace (drop_while is_space rest) with
  | [] => None
  | w => Some (lastIndex + length skipped, w)
  end.

Lemma take_drop_while p s : take_while p s ++ drop_while p s = s.
Proof.
  induction s as [|c s IH]; simpl; [reflexivity|].
  destruct (p c); simpl; [now rewrite IH | reflexivity].
Qed.

Lemma take_while_length p s : length (take_while p s) <= length s.
Proof.
  induction s as [|c s IH]; simpl; [lia|].
  destruct (p c); simpl; lia.
Qed.

Lemma exec_word_bounds content lastIndex start w :
  exec_word content lastIndex = Some (start, w) ->
  lastIndex <= start /\ 0 < length w /\ start + length w <= length content.
Proof.
  unfold exec_word. intros H.
  set (rest := skipn lastIndex content) in *.
  destruct (take_while is_nonspace (drop_while is_space rest)) as [|c w'] eqn:E;
    [discriminate|].
  injection H as <- <-.
  assert (Hlen : length rest = length content - lastIndex)
    by (unfold rest; apply length_skipn).
  pose proof (take_drop_while is_space rest) as Hsplit.
  apply (f_equal (@length _)) in Hsplit. rewrite length_app in Hsplit.
  pose proof (take_while_length is_nonspace (drop_while is_space rest)) as Hw.
  rewrite E in Hw. simpl in *. lia.
Qed.

(** Remembers which branch of a test was taken, for the termination
    argument of the loop. *)
Definition inspect {A} (a : A) : {b | a = b} := exist _ a eq_refl.

#[local] Unset Equations With Funext.

(** The [while] loop of [tokenizedContent].  [lastIndex] stands both for
    the local variable and for [wordRegex.lastIndex]: either is [0] on
    entry and each iteration sets both to the end of the match. *)
Equations? tokenize_loop (content : jsstring) (lastIndex : nat)
    (elements : list Token) : nat * list Token
    by wf (length content - lastIndex) lt :=
  tokenize_loop content lastIndex elements
    with inspect (exec_word content lastIndex) := {
    | exist _ (Some (start, txt)) _ =>
        let end_ := start + length txt in
        let elements1 :=
          if lastIndex <? start
          then elements ++
               [mkToken (substring content (Z.of_nat lastIndex) (Z.of_nat start))
                        lastIndex false]
          else elements in
        let elements2 := elements1 ++ [mkToken txt start true] in
        tokenize_loop content end_ elements2
    | exist _ None _ => (lastIndex, elements) }.
Proof.
  apply exec_word_bounds in e. lia.
Qed.

(** The whole memoised computation: the loop, then the trailing
    whitespace. *)
Definition tokenizedContent (content : jsstring) : list Token :=
  let '(lastIndex, elements) := tokenize_loop content 0 [] in
  if lastIndex <? length content
  then elements ++
       [mkToken (substring_from content (Z.of_nat lastIndex)) lastIndex false]
  else elements.

(** *** Vocabulary of the properties *)

(** Concatenation of the token texts, in order. *)
Definition texts (toks : list Token) : jsstring := concat (map text toks).

(** Tokens laid end to end, the first one starting at [base]. *)
Fixpoint placed (base : nat) (toks : list Token) : Prop :=
  match toks with
  | [] => True
  | t :: ts => index t = base /\ placed (base + length (text t)) ts
  end.

(** A word token holds non-space code units only, a separator token
    white space only, and neither is empty. *)
Definition well_kinded (t : Token) : Prop :=
  text t <> [] /\
  forallb (if isWord t then is_nonspace else is_space) (text t) = true.

End Tokenizer.

(** ** Rendered surface ([MarkdownViewer])

    The container [div] and what React renders below it, as a tree of DOM
    nodes.  Only what the highlight effect reads and writes is kept: text
    nodes with their data, elements with tag, class and children. *)

Module Dom.

#[warnings="-register-all"]
Inductive node :=
| Text (data : jsstring)
| Element (tag : string) (className : string) (children : list node).

(** A reference to a node below the container, as the child indices that
    lead to it from the container.  The effect is the only code that
    changes the tree, and it drops every reference it holds before it
    changes it, so a path names the same node for as long as it is held. *)
Definition path := list nat.

Fixpoint get (p : path) (n : node) : option node :=
  match p with
  | [] => Some n
  | i :: p' =>
      match n with
      | Element _ _ cs =>
          match nth_error cs i with
          | Some c => get p' c
          | None => None
          end
      | Text _ => None
      end
  end.

Fixpoint list_update {A} (i : nat) (g : A -> A) (l : list A) : list A :=
  match l, i with
  | [], _ => []
  | x :: l', O => g x :: l'
  | x :: l', S i' => x :: list_update i' g l'
  end.

(** In-place change of the node at [p]. *)
Fixpoint update_at (p : path) (f : node -> node) (n : node) : node :=
  match p with
  | [] => f n
  | i :: p' =>
      match n with
      | Element tg cl cs => Element tg cl (list_update i (update_at p' f) cs)
      | Text _ => n
      end
  end.

(** The results of [f i c] for the children [c] and their indices [i],
    from index [i0] on, one after the other. *)
Section FlatMapI.
Context {A B : Type} (f : nat -> A -> list B).

Fixpoint flat_mapi (i0 : nat) (l : list A) : list B :=
  match l with
  | [] => []
  | c :: l' => f i0 c ++ flat_mapi (S i0) l'
  end.

End FlatMapI.

(** [node.textContent]. *)
Fixpoint textContent (n : node) : jsstring :=
  match n with
  | Text d => d
  | Element _ _ cs => concat (map textContent cs)
  end.

(** The element [document.createElement('mark')] with
    [className = 'tts-highlight']. *)
Definition is_highlight (tg cl : string) : bool :=
  String.eqb tg "mark" && String.eqb cl "tts-highlight".

(** Number of highlight annotations in a subtree. *)
Fixpoint count_marks (n : node) : nat :=
  match n with
  | Text _ => 0
  | Element tg cl cs =>
      (if is_highlight tg cl then 1 else 0) + list_sum (map count_marks cs)
  end.

(** [Node.normalize()] on a child list whose elements are already
    normalized: empty text nodes are removed and each text node absorbs the
    text nodes that follow it directly. *)
Fixpoint merge_text (cs : list node) : list node :=
  match cs with
  | [] => []
  | Text d :: rest =>
      match d with
      | [] => merge_text rest
      | _ =>
          match merge_text rest with
          | Text d' :: rest' => Text (d ++ d') :: rest'
          | rest' => Text d :: rest'
          end
      end
  | e :: rest => e :: merge_text rest
  end.

(** [Node.normalize()]: the node and its whole subtree. *)
Fixpoint normalize (n : node) : node :=
  match n with
  | Text d => Text d
  | Element tg cl cs => Element tg cl (merge_text (map normalize cs))
  end.

(** [document.createTreeWalker(root, NodeFilter.SHOW_TEXT)]: the text
    nodes below [root] in document order, each with its reference and its
    [nodeValue].  [nextNode()] walks this list; the root itself is never
    returned. *)
Fixpoint text_nodes (here : path) (n : node) : list (path * jsstring) :=
  match n with
  | Text d => [(here, d)]
  | Element _ _ cs => flat_mapi (fun i c => text_nodes (here ++ [i]) c) 0 cs
  end.

Definition createTreeWalker (root : node) : list (path * jsstring) :=
  match root with
  | Text _ => []
  | Element _ _ _ => text_nodes [] root
  end.

(** Exceptions of the DOM operations used by the effect. *)
Inductive DOMException :=
| IndexSizeError
| InvalidStateError
| HierarchyRequestError.

Inductive completion (A : Type) :=
| Normal (a : A)
| Throw (e : DOMException).
Arguments Normal {A} a.
Arguments Throw {A} e.

Definition bind {A B} (c : completion A) (k : A -> completion B)
  : completion B :=
  match c with
  | Normal a => k a
  | Throw e => Throw e
  end.

Notation "x <- c ;; k" := (bind c (fun x => k))
  (at level 61, c at next level, right associativity).

(** Conversion of a number to WebIDL [unsigned long]. *)
Definition to_unsigned_long (z : Z) : Z := z mod 2 ^ 32.

(** A [Range] whose two boundary points lie in one text node, as offsets
    into its data. *)
Record Range := mkRange {
  startOffset : nat;
  endOffset : nat
}.

(** The check shared by [setStart] and [setEnd]: [IndexSizeError] when
    the offset exceeds the length of the node. *)
Definition boundary_offset (nodeValue : jsstring) (offset : Z)
  : completion nat :=
  let o := to_unsigned_long offset in
  if (o >? Z.of_nat (length nodeValue))%Z then Throw IndexSizeError
  else Normal (Z.to_nat o).

(** [range.setStart(node, offset)] on the fresh range of
    [document.createRange()]: both boundary points move to the offset. *)
Definition setStart (nodeValue : jsstring) (offset : Z) : completion Range :=
  o <- boundary_offset nodeValue offset ;;
  Normal (mkRange o o).

(** [range.setEnd(node, offset)], [node] being the node of the start: an
    end before the start collapses the range onto it. *)
Definition setEnd (nodeValue : jsstring) (offset : Z) (r : Range)
  : completion Range :=
  o <- boundary_offset nodeValue offset ;;
  Normal (if o <? startOffset r then mkRange o o
          else mkRange (startOffset r) o).

(** Splits the parent path and the child index of a reference. *)
Definition split_last (p : path) : option (path * nat) :=
  match rev p with
  | [] => None
  | i :: rp => Some (rev rp, i)
  end.

(** Replaces the child at index [i] by the nodes [repl]. *)
Definition splice_child (i : nat) (repl : list node) (parent : node) : node :=
  match parent with
  | Element tg cl cs => Element tg cl (firstn i cs ++ repl ++ skipn (S i) cs)
  | Text _ => parent
  end.

(** [range.surroundContents(mark)] for a range inside the single text
    node at [p].  The contents are extracted, the text node is split at the
    start of the range, [mark] is inserted between the two halves and
    receives the extracted text; the result is the new tree and the
    reference to [mark].  The operation checks before it changes anything;
    [host_rejects] stands for a host that raises there, the case the
    [catch] clause of the effect is written for. *)
Definition surroundContents (host_rejects : bool) (root : node) (p : path)
    (r : Range) : completion (node * path) :=
  if host_rejects then Throw InvalidStateError else
  match split_last p, get p root with
  | Some (pp, i), Some (Text d) =>
      let before := firstn (startOffset r) d in
      let inside := firstn (endOffset r - startOffset r) (skipn (startOffset r) d) in
      let after := skipn (endOffset r) d in
      let mark := Element "mark" "tts-highlight" [Text inside] in
      Normal (update_at pp (splice_child i [Text before; mark; Text after]) root,
              pp ++ [S i])
  | _, _ => Throw HierarchyRequestError
  end.

(** What the component keeps between runs of the effect. *)
Record Viewer := mkViewer {
  container : option node;       (* containerRef.current *)
  highlightRef : option path;    (* highlightRef.current *)
  scrolls : nat                  (* calls of mark.scrollIntoView so far *)
}.

(** The first part of the effect: "Cleanup previous highlight".  A
    reference that no longer leads to a child of an element is a node
    whose [parentNode] is [null]. *)
Definition cleanup (root : node) (href : option path) : node :=
  match href with
  | None => root
  | Some p =>
      match split_last p, get p root with
      | Some (pp, i), Some old =>
          update_at pp
            (fun parent =>
               normalize (splice_child i [Text (textContent old)] parent))
            root
      | _, _ => root
      end
  end.

(** The [while (currentNode)] loop up to the node on which it breaks:
    the first text node with [charCount + nodeLength > currentWordIndex],
    together with [charCount] at that point. *)
Fixpoint find_node (nodes : list (path * jsstring)) (charCount : Z)
    (currentWordIndex : Z) : option (path * jsstring * Z) :=
  match nodes with
  | [] => None
  | (p, nodeValue) :: rest =>
      let nodeLength := Z.of_nat (length nodeValue) in
      if (charCount + nodeLength >? currentWordIndex)%Z
      then Some (p, nodeValue, charCount)
      else find_node rest (charCount + nodeLength)%Z currentWordIndex
  end.

(** [remainingText.match(/^\w+/)] and the derived [wordLength]. *)
Definition wordLength (remainingText : jsstring) : Z :=
  match take_while is_word_char remainingText with
  | [] => 1%Z
  | m => Z.of_nat (length m)
  end.

(** The highlight effect (the first [useEffect] of [MarkdownViewer]), run
    with the props [currentWordIndex] and [isPlaying]. *)
Definition highlightEffect (host_rejects : bool) (currentWordIndex : Z)
    (isPlaying : bool) (v : Viewer) : completion Viewer :=
  match container v with
  | None => Normal v
  | Some root =>
      let root1 := cleanup root (highlightRef v) in
      let v1 := mkViewer (Some root1) None (scrolls v) in
      if (currentWordIndex <? 0)%Z || negb isPlaying then Normal v1 else
      match find_node (createTreeWalker root1) 0 currentWordIndex with
      | None => Normal v1
      | Some (p, nodeValue, charCount) =>
          let offset := Z.max 0 (currentWordIndex - charCount) in
          let remainingText := substring_from nodeValue offset in
          let wl := wordLength remainingText in
          if (offset + wl <=? Z.of_nat (length nodeValue))%Z then
            range <- setStart nodeValue offset ;;
            range <- setEnd nodeValue (offset + wl) range ;;
            match surroundContents host_rejects root1 p range with
            | Normal (root2, mark) =>
                Normal (mkViewer (Some root2) (Some mark) (S (scrolls v)))
            | Throw _ => Normal v1
            end
          else Normal v1
      end
  end.

(** Successive runs of the effect, each with the host's answer and the
    props of the render that triggered it. *)
Fixpoint run_effects (runs : list (bool * Z * bool)) (v : Viewer)
  : completion Viewer :=
  match runs with
  | [] => Normal v
  | (host_rejects, currentWordIndex, isPlaying) :: rest =>
      v' <- highlightEffect host_rejects currentWordIndex isPlaying v ;;
      run_effects rest v'
  end.

(** *** Vocabulary of the properties *)

(** Marks and text of a list of children. *)
Definition marks (cs : list node) : nat := list_sum (map count_marks cs).
Definition text_of (cs : list node) : jsstring := concat (map textContent cs).

(** The element the effect inserts around the text [w]. *)
Definition the_mark (w : jsstring) : node :=
  Element "mark" "tts-highlight" [Text w].

(** The tree and the reference agree: without a reference the tree has no
    mark; with one, it leads to the only mark of the tree. *)
Definition tidy (root : node) (href : option path) : Prop :=
  match href with
  | None => count_marks root = 0
  | Some p =>
      count_marks root = 1 /\
      exists pp i w, p = pp ++ [i] /\ get p root = Some (the_mark w)
  end.

(** A tree on which [normalize()] has nothing to do: no empty text node
    and no two text nodes side by side, at any depth. *)
Fixpoint normalized (n : node) : Prop :=
  match n with
  | Text _ => True
  | Element _ _ cs =>
      merge_text cs = cs /\
      (fix all (cs : list node) : Prop :=
         match cs with
         | [] => True
         | c :: cs' => normalized c /\ all cs'
         end) cs
  end.

(** [root0] is the tree as it was rendered. *)
Definition maintained (root0 : node) (v : Viewer) : Prop :=
  exists root,
    container v = Some root /\
    tidy root (highlightRef v) /\
    textContent root = textContent root0 /\
    (normalized root0 -> cleanup root (highlightRef v) = root0).

End Dom.

(** ** Narration controls ([App])

    [App] is a function component.  Each render binds the state values
    [file], [isPlaying], [isPaused], [currentWordIndex], [voices],
    [selectedVoice] and [rate] to constants and declares the functions
    [startReading], [onWordClick], [handleRateChange], ... anew; those
    functions read the constants of the render that declared them.  A state
    setter does not change them: it stores the value for the next render.
    So every function below takes the state [r] of the render it belongs
    to, next to the world it acts on; what lives outside the render is read
    from the world: [viewerRef.current], [window.speechSynthesis],
    [utteranceRef.current] and the state store itself. *)

Module App.

Record SpeechSynthesisVoice := mkVoice {
  name : jsstring;
  lang : jsstring
}.

Record MarkdownFile := mkFile {
  file_name : jsstring;
  content : jsstring
}.

(** The values of [useState] in [App] that the narration code uses
    ([showGemini] and [contentWidth] are layout only). *)
Record State := mkState {
  file : option MarkdownFile;
  isPlaying : bool;
  isPaused : bool;
  currentWordIndex : Z;
  voices : list SpeechSynthesisVoice;
  selectedVoice : option SpeechSynthesisVoice;
  rate : Q
}.

(** A [SpeechSynthesisUtterance] as [startReading] builds it.  Its five
    callbacks are closures over the state setters and over [startIndex],
    so the utterance and [startIndex] determine them. *)
Record Utterance := mkUtterance {
  u_text : jsstring;
  u_voice : option SpeechSynthesisVoice;
  u_rate : Q;
  u_pitch : Q;
  startIndex : Z
}.

(** [window.speechSynthesis]: the utterances it has been given and has
    neither finished nor dropped, oldest first, and its two flags. *)
Record SpeechSynthesis := mkSynth {
  queue : list Utterance;
  speaking : bool;
  paused : bool
}.

Inductive EngineCall :=
| Cancel
| Speak (u : Utterance)
| Pause
| Resume.

(** A pending [setTimeout(() => startReading(i), ms)]: the callback holds
    the [startReading] of the render that created it. *)
Record Timer := mkTimer {
  delay : nat;
  closure : State;
  argument : Z
}.

Record World := mkWorld {
  app : State;                     (* state store: what the next render sees *)
  viewerText : option jsstring;    (* viewerRef.current, as its getInnerText() *)
  supported : bool;                (* 'speechSynthesis' in window *)
  synth : SpeechSynthesis;
  calls : list EngineCall;         (* calls made on the engine, oldest first *)
  timers : list Timer;
  utteranceRef : option Utterance;
  alerts : nat
}.

(** *** State setters *)

Definition set_app (f : State -> State) (w : World) : World :=
  mkWorld (f (app w)) (viewerText w) (supported w) (synth w) (calls w)
          (timers w) (utteranceRef w) (alerts w).

Definition setFile (x : option MarkdownFile) : World -> World :=
  set_app (fun s => mkState x (isPlaying s) (isPaused s) (currentWordIndex s)
                      (voices s) (selectedVoice s) (rate s)).
Definition setIsPlaying (b : bool) : World -> World :=
  set_app (fun s => mkState (file s) b (isPaused s) (currentWordIndex s)
                      (voices s) (selectedVoice s) (rate s)).
Definition setIsPaused (b : bool) : World -> World :=
  set_app (fun s => mkState (file s) (isPlaying s) b (currentWordIndex s)
                      (voices s) (selectedVoice s) (rate s)).
Definition setCurrentWordIndex (i : Z) : World -> World :=
  set_app (fun s => mkState (file s) (isPlaying s) (isPaused s) i
                      (voices s) (selectedVoice s) (rate s)).
Definition setVoices (vs : list SpeechSynthesisVoice) : World -> World :=
  set_app (fun s => mkState (file s) (isPlaying s) (isPaused s)
                      (currentWordIndex s) vs (selectedVoice s) (rate s)).
Definition setSelectedVoice (v : option SpeechSynthesisVoice) : World -> World :=
  set_app (fun s => mkState (file s) (isPlaying s) (isPaused s)
                      (currentWordIndex s) (voices s) v (rate s)).
Definition setRate (q : Q) : World -> World :=
  set_app (fun s => mkState (file s) (isPlaying s) (isPaused s)
                      (currentWordIndex s) (voices s) (selectedVoice s) q).

(** *** The speech engine, as the code uses it

    [cancel()] empties the queue and ends speaking; [speak(u)] appends to
    the queue; [pause()] and [resume()] switch the paused flag.  Neither
    [cancel] nor [speak] touches the paused flag.  Only [startReading]
    tests whether the window has the engine at all; the other functions
    call it outright, and are described here for a window that has it. *)

Definition on_synth (c : EngineCall) (f : SpeechSynthesis -> SpeechSynthesis)
    (w : World) : World :=
  mkWorld (app w) (viewerText w) (supported w) (f (synth w)) (calls w ++ [c])
          (timers w) (utteranceRef w) (alerts w).

Definition cancel : World -> World :=
  on_synth Cancel (fun s => mkSynth [] false (paused s)).
Definition speak (u : Utterance) : World -> World :=
  on_synth (Speak u) (fun s => mkSynth (queue s ++ [u]) (speaking s) (paused s)).
Definition pause : World -> World :=
  on_synth Pause (fun s => mkSynth (queue s) (speaking s) true).
Definition resume : World -> World :=
  on_synth Resume (fun s => mkSynth (queue s) (speaking s) false).

Definition setTimeout (r : State) (i : Z) (ms : nat) (w : World) : World :=
  mkWorld (app w) (viewerText w) (supported w) (synth w) (calls w)
          (timers w ++ [mkTimer ms r i]) (utteranceRef w) (alerts w).

Definition set_utteranceRef (u : Utterance) (w : World) : World :=
  mkWorld (app w) (viewerText w) (supported w) (synth w) (calls w)
          (timers w) (Some u) (alerts w).

Definition alert (w : World) : World :=
  mkWorld (app w) (viewerText w) (supported w) (synth w) (calls w)
          (timers w) (utteranceRef w) (S (alerts w)).

(** *** Voices

    [loadVoices] is declared inside the effect that runs once after the
    first render, and the engine keeps it as [onvoiceschanged]: the
    [selectedVoice] it reads is the one of the first render, [r0]. *)

Fixpoint starts_with (prefix s : jsstring) : bool :=
  match prefix, s with
  | [], _ => true
  | a :: prefix', b :: s' => (a =? b)%N && starts_with prefix' s'
  | _ :: _, [] => false
  end.

Fixpoint includes (needle s : jsstring) : bool :=
  starts_with needle s ||
  match s with
  | [] => false
  | _ :: s' => includes needle s'
  end.

Definition or_else {A} (a b : option A) : option A :=
  match a with Some _ => a | None => b end.

Definition loadVoices (r0 : State) (availableVoices : list SpeechSynthesisVoice)
    (w : World) : World :=
  let w1 := setVoices availableVoices w in
  let preferred :=
    or_else (find (fun v => includes (js "Google US English") (name v))
                  availableVoices)
      (or_else (find (fun v => starts_with (js "en") (lang v)) availableVoices)
               (hd_error availableVoices)) in
  match preferred, selectedVoice r0 with
  | Some _, None => setSelectedVoice preferred w1
  | _, _ => w1
  end.

(** *** TTS control functions *)

Definition startReading (r : State) (startIndex : Z) (w : World) : World :=
  match file r, viewerText w with
  | Some _, Some textContent =>
      if negb (supported w) then alert w
      else if blank textContent then w
      else
        let w1 := cancel w in
        let textToRead := substring_from textContent startIndex in
        if blank textToRead then w1
        else
          let utterance :=
            mkUtterance textToRead (selectedVoice r) (rate r) 1 startIndex in
          speak utterance (set_utteranceRef utterance w1)
  | _, _ => w
  end.

(** In [setTimeout(() => startReading(i), ms)] the name [startReading]
    is the function of the render [r] in which the handler was declared:
    that is the render the timer keeps. *)
Definition onWordClick (r : State) (index : Z) (w : World) : World :=
  setTimeout r index 10 (cancel w).

Definition handleRateChange (r : State) (newRate : Q) (w : World) : World :=
  let w1 := setRate newRate w in
  if isPlaying r then
    let w2 := cancel w1 in
    let currentIndex :=
      if (currentWordIndex r >? 0)%Z then currentWordIndex r else 0%Z in
    setTimeout r currentIndex 50 w2
  else w1.

Definition jsstring_eqb (a b : jsstring) : bool :=
  if list_eq_dec N.eq_dec a b then true else false.

Definition handleVoiceChange (r : State) (voiceName : jsstring) (w : World)
  : World :=
  match find (fun v => jsstring_eqb (name v) voiceName) (voices r) with
  | Some voice =>
      let w1 := setSelectedVoice (Some voice) w in
      if isPlaying r then
        let w2 := cancel w1 in
        let currentIndex :=
          if (currentWordIndex r >? 0)%Z then currentWordIndex r else 0%Z in
        setTimeout r currentIndex 50 w2
      else w1
  | None => w
  end.

Definition pauseReading (w : World) : World :=
  if speaking (synth w) && negb (paused (synth w)) then pause w else w.

Definition resumeReading (w : World) : World :=
  if paused (synth w) then resume w else w.

Definition stopReading (w : World) : World :=
  setCurrentWordIndex (-1) (setIsPaused false (setIsPlaying false (cancel w))).

Definition replayReading (r : State) (w : World) : World :=
  setTimeout r 0 100 (stopReading w).

Definition handleFileUpload (content fileName : jsstring) (w : World) : World :=
  stopReading (setFile (Some (mkFile fileName content)) w).

(** *** Callbacks of an utterance *)

Inductive BoundaryName := word | sentence.

Inductive SpeechEvent :=
| EvStart
| EvEnd
| EvPause
| EvResume
| EvBoundary (name : BoundaryName) (charIndex : Z).

Definition callback (u : Utterance) (e : SpeechEvent) (w : World) : World :=
  match e with
  | EvStart => setIsPaused false (setIsPlaying true w)
  | EvEnd =>
      setCurrentWordIndex (-1) (setIsPaused false (setIsPlaying false w))
  | EvPause => setIsPaused true w
  | EvResume => setIsPaused false w
  | EvBoundary word charIndex =>
      setCurrentWordIndex (startIndex u + charIndex) w
  | EvBoundary sentence _ => w
  end.

(** *** What can happen to the page

    User actions run the handlers of the latest render; a timer runs the
    [startReading] it captured; the engine reports on the utterance at the
    head of its queue.  [Late u e] is a callback of [u] invoked although
    the engine no longer holds [u]: the code registers its callbacks on the
    utterance and does not check, when one runs, which utterance is
    current. *)

Inductive Input :=
| VoicesChanged (availableVoices : list SpeechSynthesisVoice)
| Upload (content fileName rendered : jsstring)
| Start (offset : Z)
| Seek (offset : Z)
| ChangeRate (r : Q)
| ChangeVoice (voiceName : jsstring)
| DoPause
| DoResume
| Stop
| Replay
| TimerFires (k : nat)
| Engine (e : SpeechEvent)
| Late (u : Utterance) (e : SpeechEvent).

Definition set_viewerText (t : option jsstring) (w : World) : World :=
  mkWorld (app w) t (supported w) (synth w) (calls w)
          (timers w) (utteranceRef w) (alerts w).

Definition set_timers (ts : list Timer) (w : World) : World :=
  mkWorld (app w) (viewerText w) (supported w) (synth w) (calls w)
          ts (utteranceRef w) (alerts w).

Definition set_synth (s : SpeechSynthesis) (w : World) : World :=
  mkWorld (app w) (viewerText w) (supported w) s (calls w)
          (timers w) (utteranceRef w) (alerts w).

(** The engine's own bookkeeping when it reports [e] on the head of its
    queue. *)
Definition engine_progress (e : SpeechEvent) (s : SpeechSynthesis)
  : SpeechSynthesis :=
  match e with
  | EvStart => mkSynth (queue s) true (paused s)
  | EvEnd => mkSynth (tl (queue s)) false (paused s)
  | _ => s
  end.

(** The state of the first render. *)
Definition first_render : State :=
  mkState None false false (-1) [] None 1.

Definition step (i : Input) (w : World) : World :=
  match i with
  | VoicesChanged vs => loadVoices first_render vs w
  | Upload c f rendered => set_viewerText (Some rendered) (handleFileUpload c f w)
  | Start o => startReading (app w) o w
  | Seek o => onWordClick (app w) o w
  | ChangeRate q => handleRateChange (app w) q w
  | ChangeVoice n => handleVoiceChange (app w) n w
  | DoPause => pauseReading w
  | DoResume => resumeReading w
  | Stop => stopReading w
  | Replay => replayReading (app w) w
  | TimerFires k =>
      match nth_error (timers w) k with
      | Some t =>
          startReading (closure t) (argument t)
            (set_timers (firstn k (timers w) ++ skipn (S k) (timers w)) w)
      | None => w
      end
  | Engine e =>
      match queue (synth w) with
      | u :: _ => callback u e (set_synth (engine_progress e (synth w)) w)
      | [] => w
      end
  | Late u e => callback u e w
  end.

Definition run (trace : list Input) (w : World) : World :=
  fold_left (fun w i => step i w) trace w.

(** The page after the first render. *)
Definition initial : World :=
  mkWorld first_render None true (mkSynth [] false false) [] [] None 0.

(** The session status of the specification, read off the two flags. *)
Inductive Status := Idle | Playing | Paused.

Definition status (s : State) : Status :=
  if isPlaying s then (if isPaused s then Paused else Playing) else Idle.

(** *** Vocabulary of the properties *)

(** [startReading r o w] gets as far as [speak]: the render has a file,
    the viewer is mounted, the engine exists, and neither the text nor its
    slice from [o] is blank. *)
Definition starts (r : State) (o : Z) (w : World) : Prop :=
  file r <> None /\ supported w = true /\
  exists t, viewerText w = Some t /\
            blank t = false /\ blank (substring_from t o) = false.

(** The utterance [startReading] builds from the text [t]. *)
Definition utterance_for (r : State) (o : Z) (t : jsstring) : Utterance :=
  mkUtterance (substring_from t o) (selectedVoice r) (rate r) 1 o.

(** In a log of engine calls, every [speak] comes directly after a
    [cancel]. *)
Definition cancels_before_speaking (cs : list EngineCall) : Prop :=
  forall pre u post,
    cs = pre ++ Speak u :: post -> exists pre', pre = pre' ++ [Cancel].

(** The engine holds nothing, or exactly the utterance built last. *)
Definition one_stream (w : World) : Prop :=
  queue (synth w) = [] \/
  exists u, queue (synth w) = [u] /\ utteranceRef w = Some u.

End App.

(** ** The page: [App] and the [MarkdownViewer] it renders *)

Module Page.
Import Dom App.

Record Page := mkPage {
  world : World;
  viewer : Viewer
}.

(** The commit that follows a render.  [App] passes [currentWordIndex] and
    [isPlaying] down as props and the highlight effect of [MarkdownViewer]
    runs with them.  No error boundary surrounds the viewer: an error
    thrown by the effect makes React unmount the tree, and the cleanup of
    the last effect of [App] then cancels the engine. *)
Definition commit (host_rejects : bool) (pg : Page) : Page :=
  match highlightEffect host_rejects
          (currentWordIndex (app (world pg))) (isPlaying (app (world pg)))
          (viewer pg) with
  | Normal v' => mkPage (world pg) v'
  | Throw _ =>
      mkPage (cancel (world pg)) (mkViewer None None (scrolls (viewer pg)))
  end.

End Page.


(** ** Scenarios

    The document and the runs that the examples of the specification are
    about. *)

Module Scenario.
Import Dom App.

(** A rendered surface: a paragraph with an emphasised word, and a text
    node after it. *)
Definition sample_surface : node :=
  Element "div" "prose"
    [ Element "p" "" [Text (js "alpha beta "); Element "em" "" [Text (js "gamma")]];
      Text (js " tail") ].

Definition alpha_beta_gamma : jsstring := js "alpha beta gamma".

(** The file is uploaded and rendered as its own text, "Read Aloud" is
    pressed, the engine starts and reaches the word at local index 6. *)
Definition reading_beta : list Input :=
  [ Upload alpha_beta_gamma (js "doc.md") alpha_beta_gamma;
    Start 0; Engine EvStart; Engine (EvBoundary word 6) ].

(** Then a click seeks to offset 12, its timer fires, the engine starts
    the new utterance and reports its first word. *)
Definition seeking_12 : list Input :=
  reading_beta ++
  [ Seek 12; TimerFires 0; Engine EvStart; Engine (EvBoundary word 0) ].

(** The reading of C2 on which the controller itself discards what a
    canceled stream still delivers: whenever an utterance that was given
    to the engine is no longer held by it while another one is, a boundary
    callback of the former leaves [currentWordIndex] alone. *)
Definition stale_boundaries_are_discarded : Prop :=
  forall (trace : list Input) (u : Utterance) (c : Z),
    let w := run trace initial in
    In (Speak u) (calls w) ->
    ~ In u (queue (synth w)) ->
    queue (synth w) <> [] ->
    currentWordIndex (app (step (Late u (EvBoundary word c)) w)) =
    currentWordIndex (app w).

(** "Read Aloud" has reached the word at offset 6 at rate 1; the rate
    slider is moved to 1.5 and the timer of the restart fires. *)
Definition rate_changed_at_beta : list Input :=
  reading_beta ++ [ ChangeRate (3 # 2); TimerFires 0 ].

Definition english : SpeechSynthesisVoice := mkVoice (js "Alex") (js "en-US").
Definition french : SpeechSynthesisVoice := mkVoice (js "Thomas") (js "fr-FR").

(** The same with two voices loaded, the first one selected by
    [loadVoices], and the other one chosen while reading. *)
Definition voice_changed_at_beta : list Input :=
  VoicesChanged [english; french] :: reading_beta ++
  [ ChangeVoice (js "Thomas"); TimerFires 0 ].

(** The page after an empty file has been uploaded. *)
Definition empty_document : World :=
  run [Upload [] (js "empty.md") []] initial.

(** "Read Aloud" was pressed and the engine has started, but no word
    boundary has been reported yet: the position is still -1. *)
Definition just_started : list Input :=
  [ Upload alpha_beta_gamma (js "doc.md") alpha_beta_gamma;
    Start 0; Engine EvStart ].

End Scenario.

(** ** Further components

    The rest of the reader view, click-to-seek in the viewer, the file
    uploader, the layout toggle of [App] and the assistant panel. *)

(** *** [ReaderView]: the spans it renders *)

Module Reader.
Import Tokenizer.

(** The code unit at a number used as an index, [undefined] as [None]. *)
Definition char_at (s : jsstring) (i : Z) : option code_unit :=
  if (i <? 0)%Z then None else nth_error s (Z.to_nat i).

(** The number of highlighted spans there should be for the code unit at
    the current index: one on a word, none on white space or outside. *)
Definition highlighted (c : option code_unit) : nat :=
  match c with
  | Some c => if is_space c then 0 else 1
  | None => 0
  end.

(** [isActive(start, text)], with the prop [currentWordIndex] it reads. *)
Definition isActive (currentWordIndex : Z) (start : nat) (text : jsstring)
  : bool :=
  (currentWordIndex >=? Z.of_nat start)%Z &&
  (currentWordIndex <? Z.of_nat start + Z.of_nat (length text))%Z.

(** A rendered [span]: its text, whether it carries the highlight classes
    (and [activeWordRef]), and the index its click handler passes to
    [onWordClick], if it has one. *)
Record Span := mkSpan {
  span_text : jsstring;
  active : bool;
  onClick : option Z
}.

(** The body of [tokenizedContent.map((token, i) => ...)]. *)
Definition render_token (currentWordIndex : Z) (token : Token) : Span :=
  if negb (isWord token) then mkSpan (text token) false None
  else mkSpan (text token)
              (isActive currentWordIndex (index token) (text token))
              (Some (Z.of_nat (index token))).

Definition render (content : jsstring) (currentWordIndex : Z) : list Span :=
  map (render_token currentWordIndex) (tokenizedContent content).

(** Neighbouring tokens are of different kinds. *)
Fixpoint alternating (toks : list Token) : Prop :=
  match toks with
  | t1 :: rest =>
      match rest with
      | t2 :: _ => isWord t1 <> isWord t2
      | [] => True
      end /\ alternating rest
  | [] => True
  end.

End Reader.

(** *** [MarkdownViewer]: click to seek *)

Module ClickToSeek.
Import Dom.

(** The node a DOM range starts in: a node below the container (the
    container itself is the empty path), or a node elsewhere in the
    document. *)
Inductive NodeRef :=
| Inside (p : path)
| Elsewhere.

(** [selection.getRangeAt(0)], as far as the handler reads it. *)
Record SelectionRange := mkSelectionRange {
  startContainer : NodeRef;
  startOffset : nat
}.

Definition path_eqb (p q : path) : bool :=
  if list_eq_dec Nat.eq_dec p q then true else false.

(** The [while (currentNode)] loop of the handler: the lengths of the text
    nodes before the clicked one, plus the offset inside it. *)
Fixpoint click_walk (nodes : list (path * jsstring)) (clickedNode : path)
    (offset : Z) (startOffset : nat) : option Z :=
  match nodes with
  | [] => None
  | (p, nodeValue) :: rest =>
      if path_eqb p clickedNode then Some (offset + Z.of_nat startOffset)%Z
      else click_walk rest clickedNode
             (offset + Z.of_nat (length nodeValue))%Z startOffset
  end.

(** [handleContainerClick]: the argument it calls [onWordClick] with, or
    [None] when it returns without calling it.  [selection] is [None] when
    there is no selection or it has no range.  The tree has text and
    element nodes only, so the test on [nodeType] always passes. *)
Definition handleContainerClick (v : Viewer)
    (selection : option SelectionRange) : option Z :=
  match container v with
  | None => None
  | Some root =>
      match selection with
      | None => None
      | Some range =>
          match startContainer range with
          | Elsewhere => None
          | Inside clickedNode =>
              match get clickedNode root with
              | None => None
              | Some _ =>
                  click_walk (createTreeWalker root) clickedNode 0
                             (startOffset range)
              end
          end
      end
  end.

(** The number of code units in a list of text nodes. *)
Definition total (nodes : list (path * jsstring)) : Z :=
  Z.of_nat (length (concat (map snd nodes))).

End ClickToSeek.

(** *** What the engine is given to read *)

Module Narration.
Import App.

(** What the engine holds is the rest of the rendered text, from the
    start offset of the utterance, and it is not blank. *)
Definition reads_rendered_text (w : World) : Prop :=
  forall u, In u (queue (synth w)) ->
    exists t, viewerText w = Some t /\
              u_text u = substring_from t (startIndex u) /\
              blank (u_text u) = false.

End Narration.

(** *** [FileUploader] and the layout toggle *)

Module Chrome.
Import App.

(** [s.endsWith(suffix)]. *)
Definition ends_with (suffix s : jsstring) : bool :=
  starts_with (rev suffix) (rev s).

(** [processFile]: a file whose name does not end in [.md] is refused with
    an alert; otherwise it is read and [onFileUpload], which is
    [handleFileUpload] of [App], receives its text, and the viewer renders
    it as [rendered]. *)
Definition processFile (fileName content rendered : jsstring) (w : World)
  : World :=
  if negb (ends_with (js ".md") fileName) then alert w
  else set_viewerText (Some rendered) (handleFileUpload content fileName w).

(** Files given to the uploader one after the other. *)
Definition drop_files (files : list (jsstring * jsstring * jsstring))
    (w : World) : World :=
  fold_left (fun w f => processFile (fst (fst f)) (snd (fst f)) (snd f) w)
            files w.

Inductive ContentWidth := max_w_4xl | max_w_6xl | max_w_7xl | max_w_none.

(** [cycleWidth], as the value it hands to [setContentWidth]. *)
Definition cycleWidth (contentWidth : ContentWidth) : ContentWidth :=
  match contentWidth with
  | max_w_4xl => max_w_6xl
  | max_w_6xl => max_w_7xl
  | max_w_7xl => max_w_none
  | max_w_none => max_w_4xl
  end.

Definition getWidthLabel (contentWidth : ContentWidth) : string :=
  match contentWidth with
  | max_w_4xl => "Narrow"
  | max_w_6xl => "Wide"
  | max_w_7xl => "X-Wide"
  | max_w_none => "Full"
  end.

End Chrome.

(** *** The assistant panel ([GeminiPanel] and [geminiService]) *)

Module Gemini.

Inductive Role := user | model.

Record ChatMessage := mkMessage {
  role : Role;
  msg_text : jsstring
}.

(** An element of the [history] handed to the service. *)
Record HistoryItem := mkHistoryItem {
  h_role : Role;
  h_parts : list jsstring
}.

(** What the remote call does: it resolves with a response whose [text]
    may be missing, or it throws. *)
Inductive ApiOutcome :=
| Responded (text : option jsstring)
| Rejected.

(** [response.text || fallback]. *)
Definition text_or (text : option jsstring) (fallback : jsstring) : jsstring :=
  match text with
  | Some t => if truthy t then t else fallback
  | None => fallback
  end.

(** [generateSummary], given the outcome of [ai.models.generateContent]. *)
Definition generateSummary (o : ApiOutcome) : jsstring :=
  match o with
  | Responded t => text_or t (js "Could not generate summary.")
  | Rejected => js "Error connecting to Gemini API. Please check your API key."
  end.

(** [chatWithDocument], given the outcome of [chat.sendMessage]. *)
Definition chatWithDocument (o : ApiOutcome) : jsstring :=
  match o with
  | Responded t => text_or t (js "No response generated.")
  | Rejected => js "Error processing your request."
  end.

(** A call of [chatWithDocument] that has not returned yet, with the
    arguments it was given. *)
Record ChatCall := mkChatCall {
  documentContent : jsstring;
  question : jsstring;
  history : list HistoryItem
}.

(** The state of the panel, and the service calls it is waiting for. *)
Record Panel := mkPanel {
  summary : option jsstring;
  isLoadingSummary : bool;
  messages : list ChatMessage;
  inputValue : jsstring;
  isChatLoading : bool;
  chat_calls : list ChatCall;
  summary_calls : nat
}.

(** [handleGenerateSummary] up to its [await]. *)
Definition handleGenerateSummary (p : Panel) : Panel :=
  mkPanel (summary p) true (messages p) (inputValue p) (isChatLoading p)
          (chat_calls p) (S (summary_calls p)).

(** [handleGenerateSummary] after its [await]. *)
Definition summary_returns (o : ApiOutcome) (p : Panel) : Panel :=
  match summary_calls p with
  | O => p
  | S n =>
      mkPanel (Some (generateSummary o)) false (messages p) (inputValue p)
              (isChatLoading p) (chat_calls p) n
  end.

(** [handleSendMessage] up to its [await].  [r] is the render the handler
    belongs to: [inputValue], [isChatLoading] and [messages] are read from
    it, while [setMessages(prev => ...)] extends the stored list. *)
Definition handleSendMessage (r : Panel) (doc : jsstring) (p : Panel) : Panel :=
  if blank (inputValue r) || isChatLoading r then p
  else
    let userMsg := mkMessage user (inputValue r) in
    let history :=
      map (fun m => mkHistoryItem (role m) [msg_text m]) (messages r) in
    mkPanel (summary p) (isLoadingSummary p) (messages p ++ [userMsg]) []
            true (chat_calls p ++ [mkChatCall doc (msg_text userMsg) history])
            (summary_calls p).

(** [handleSendMessage] after its [await], for the oldest call. *)
Definition chat_returns (o : ApiOutcome) (p : Panel) : Panel :=
  match chat_calls p with
  | [] => p
  | _ :: rest =>
      mkPanel (summary p) (isLoadingSummary p)
              (messages p ++ [mkMessage model (chatWithDocument o)])
              (inputValue p) false rest (summary_calls p)
  end.

Inductive PanelEvent :=
| Type_ (value : jsstring)            (* onChange of the input *)
| Submit                              (* the form, or the send button *)
| ChatReturns (o : ApiOutcome)
| ClickSummary
| SummaryReturns (o : ApiOutcome).

Definition panel_step (doc : jsstring) (e : PanelEvent) (p : Panel) : Panel :=
  match e with
  | Type_ value =>
      mkPanel (summary p) (isLoadingSummary p) (messages p) value
              (isChatLoading p) (chat_calls p) (summary_calls p)
  | Submit => handleSendMessage p doc p
  | ChatReturns o => chat_returns o p
  | ClickSummary => handleGenerateSummary p
  | SummaryReturns o => summary_returns o p
  end.

Definition panel_run (doc : jsstring) (trace : list PanelEvent) (p : Panel)
  : Panel :=
  fold_left (fun p e => panel_step doc e p) trace p.

(** The panel when it is mounted. *)
Definition panel_initial : Panel :=
  mkPanel None false [] [] false [] 0.

(** The roles of a conversation in which the user and the model take
    turns, the user first. *)
Fixpoint takes_turns (expected : Role) (ms : list ChatMessage) : Prop :=
  match ms with
  | [] => True
  | m :: rest =>
      role m = expected /\
      takes_turns (match expected with user => model | model => user end) rest
  end.

(** The conversation is in order: while a question is pending its call
    holds the question and the exchanges before it, and otherwise every
    question has its answer. *)
Definition orderly (doc : jsstring) (p : Panel) : Prop :=
  if isChatLoading p then
    exists earlier q,
      messages p = earlier ++ [mkMessage user q] /\
      chat_calls p =
        [mkChatCall doc q
           (map (fun m => mkHistoryItem (role m) [msg_text m]) earlier)] /\
      takes_turns user earlier /\
      Nat.even (length earlier) = true /\
      blank q = false
  else
    chat_calls p = [] /\
    takes_turns user (messages p) /\
    Nat.even (length (messages p)) = true.

(** What the panel shows is never an empty text. *)
Definition legible (p : Panel) : Prop :=
  (forall s, summary p = Some s -> truthy s = true) /\
  (forall m, In m (messages p) ->
     match role m with
     | user => blank (msg_text m) = false
     | model => truthy (msg_text m) = true
     end).

End Gemini.


(** * Properties *)

(** ** Strings *)

Lemma take_while_all p s : forallb p (take_while p s) = true.
Proof.
  induction s as [|c s IH]; simpl; [reflexivity|].
  destruct (p c) eqn:E; simpl; [now rewrite E | reflexivity].
Qed.

Lemma drop_while_head p s c r : drop_while p s = c :: r -> p c = false.
Proof.
  induction s as [|d s IH]; simpl; [discriminate|].
  destruct (p d) eqn:E; [assumption|].
  intros H. injection H as -> _. assumption.
Qed.

Lemma take_while_id p s : forallb p s = true -> take_while p s = s.
Proof.
  induction s as [|c s IH]; simpl; [reflexivity|].
  destruct (p c); simpl; [intros H; now rewrite IH | discriminate].
Qed.

Lemma drop_while_nil p s : forallb p s = true <-> drop_while p s = [].
Proof.
  induction s as [|c s IH]; simpl; [tauto|].
  destruct (p c); simpl; [assumption|]. split; discriminate.
Qed.

Lemma take_while_app p a b :
  forallb p a = true -> take_while p (a ++ b) = a ++ take_while p b.
Proof.
  induction a as [|c a IH]; simpl; [reflexivity|].
  destruct (p c); simpl; [intros H; now rewrite IH | discriminate].
Qed.

Lemma take_while_stop p c r : p c = false -> take_while p (c :: r) = [].
Proof. simpl. now intros ->. Qed.

Lemma clamp_of_nat len i : i <= len -> clamp len (Z.of_nat i) = i.
Proof. unfold clamp. rewrite Nat2Z.id. lia. Qed.

Lemma substring_from_of_nat s i : substring_from s (Z.of_nat i) = skipn i s.
Proof.
  unfold substring_from, clamp. rewrite Nat2Z.id.
  destruct (Nat.le_gt_cases i (length s)) as [H|H].
  - now rewrite Nat.min_l.
  - rewrite Nat.min_r by lia. rewrite !skipn_all2; [reflexivity|lia|lia].
Qed.

Lemma substring_of_nat s a b :
  a <= b -> b <= length s ->
  substring s (Z.of_nat a) (Z.of_nat b) = firstn (b - a) (skipn a s).
Proof.
  intros Hab Hb. unfold substring.
  rewrite !clamp_of_nat by lia.
  now rewrite Nat.min_l, Nat.max_r by lia.
Qed.

Lemma blank_spec s : blank s = true <-> forallb is_space s = true.
Proof.
  unfold blank, trim. rewrite drop_while_nil.
  destruct (drop_while is_space s) as [|c r] eqn:E; simpl; [tauto|].
  split; [|discriminate]. intros H. exfalso.
  apply drop_while_head in E.
  destruct (rev (drop_while is_space (rev r ++ [c]))) eqn:E2; [|discriminate].
  apply (f_equal (@rev _)) in E2. rewrite rev_involutive in E2. simpl in E2.
  apply drop_while_nil in E2.
  rewrite forallb_app in E2. simpl in E2. rewrite E in E2.
  rewrite andb_false_r in E2. discriminate.
Qed.

(** ** Tokenizer *)

Module TokenizerFacts.
Import Tokenizer.

Lemma texts_app a b : texts (a ++ b) = texts a ++ texts b.
Proof. unfold texts. now rewrite map_app, concat_app. Qed.

Lemma placed_app base a b :
  placed base (a ++ b) <->
  placed base a /\ placed (base + length (texts a)) b.
Proof.
  revert base. induction a as [|t a IH]; intros base; simpl.
  - rewrite Nat.add_0_r. tauto.
  - rewrite IH. unfold texts. simpl. rewrite length_app, Nat.add_assoc. tauto.
Qed.

Lemma exec_word_some content li start w :
  exec_word content li = Some (start, w) ->
  li <= start /\ start + length w <= length content /\
  firstn (start - li) (skipn li content) =
    take_while is_space (skipn li content) /\
  skipn li content =
    take_while is_space (skipn li content) ++ w ++
    skipn (start + length w) content /\
  w <> [] /\ forallb is_nonspace w = true.
Proof.
  intros H. pose proof (exec_word_bounds _ _ _ _ H) as (Hle & Hpos & Hend).
  unfold exec_word in H.
  set (rest := skipn li content) in *.
  destruct (take_while is_nonspace (drop_while is_space rest)) as [|c w'] eqn:E;
    [discriminate|].
  injection H as Hs Hw.
  assert (Hw' : w = take_while is_nonspace (drop_while is_space rest))
    by congruence.
  clear E Hw.
  pose proof (take_drop_while is_space rest) as Hsplit.
  pose proof (take_drop_while is_nonspace (drop_while is_space rest)) as Hsplit2.
  set (ws := take_while is_space rest) in *.
  assert (Hstart : start - li = length ws) by lia.
  assert (Hrest : rest = ws ++ w ++ drop_while is_nonspace (drop_while is_space rest)).
  { rewrite Hw', Hsplit2, Hsplit. reflexivity. }
  repeat split; try assumption.
  - rewrite Hstart, Hrest at 1. now rewrite firstn_app, Nat.sub_diag, firstn_all, firstn_O, app_nil_r.
  - rewrite Hrest at 1. do 2 f_equal.
    replace (start + length w) with ((length ws + length w) + li) by lia.
    rewrite <- skipn_skipn. fold rest. rewrite Hrest at 2.
    rewrite app_assoc, <- length_app, skipn_app, skipn_all, Nat.sub_diag.
    reflexivity.
  - intros ->. simpl in Hpos. lia.
  - rewrite Hw'. apply take_while_all.
Qed.

Lemma exec_word_none content li :
  exec_word content li = None -> forallb is_space (skipn li content) = true.
Proof.
  unfold exec_word. intros H. apply drop_while_nil.
  destruct (drop_while is_space (skipn li content)) as [|c r] eqn:E;
    [reflexivity|].
  apply drop_while_head in E. simpl in H. unfold is_nonspace at 1 in H.
  rewrite E in H. discriminate.
Qed.

(** What the loop has appended on exit, and where it stops. *)
Lemma tokenize_loop_spec content li els :
  li <= length content ->
  exists more,
    snd (tokenize_loop content li els) = els ++ more /\
    li <= fst (tokenize_loop content li els) <= length content /\
    placed li more /\
    texts more = firstn (fst (tokenize_loop content li els) - li) (skipn li content) /\
    Forall well_kinded more /\
    forallb is_space (skipn (fst (tokenize_loop content li els)) content) = true /\
    (more = [] \/
     exists pre w, more = pre ++ [mkToken w (fst (tokenize_loop content li els) - length w) true]).
Proof.
  apply (tokenize_loop_elim
    (fun content li els res =>
       li <= length content ->
       exists more,
         snd res = els ++ more /\
         li <= fst res <= length content /\
         placed li more /\
         texts more = firstn (fst res - li) (skipn li content) /\
         Forall well_kinded more /\
         forallb is_space (skipn (fst res) content) = true /\
         (more = [] \/
          exists pre w, more = pre ++ [mkToken w (fst res - length w) true])));
    clear content li els.
  - intros content li start txt e els IH _ Hli.
    cbv zeta in IH.
    pose proof (exec_word_some _ _ _ _ e) as (Hle & Hend & Hws & Hsplit & Hne & Hns).
    destruct IH as (more & Hsnd & Hfst & Hpl & Htx & Hwk & Hsp & Hlast); [lia|].
    set (res := tokenize_loop content (start + length txt) _) in *.
    remember (mkToken (substring content (Z.of_nat li) (Z.of_nat start)) li false)
      as sep eqn:Esep.
    remember (mkToken txt start true) as wd eqn:Ewd.
    assert (Hsub : text sep = firstn (start - li) (skipn li content)).
    { subst sep. simpl. apply substring_of_nat; lia. }
    assert (Hsepi : index sep = li) by now subst sep.
    assert (Hsepw : isWord sep = false) by now subst sep.
    assert (Hwdt : text wd = txt) by now subst wd.
    assert (Hwdi : index wd = start) by now subst wd.
    assert (Hwdw : isWord wd = true) by now subst wd.
    assert (Hcut : firstn (fst res - li) (skipn li content) =
                   firstn (start - li) (skipn li content) ++ txt ++
                   firstn (fst res - (start + length txt))
                          (skipn (start + length txt) content)).
    { rewrite Hws. rewrite Hsplit at 1.
      assert (Hl : length (take_while is_space (skipn li content)) = start - li).
      { rewrite <- Hws. rewrite length_firstn, length_skipn. lia. }
      rewrite firstn_app, Hl.
      rewrite firstn_all2 by lia.
      f_equal. rewrite firstn_app. rewrite firstn_all2 by lia.
      f_equal. f_equal. lia. }
    exists ((if li <? start then [sep] else []) ++ wd :: more).
    repeat split.
    + rewrite Hsnd. destruct (li <? start); simpl; now rewrite <- !app_assoc.
    + lia.
    + lia.
    + destruct (li <? start) eqn:Elt; simpl.
      * split; [assumption|]. rewrite Hsub, length_firstn, length_skipn.
        apply Nat.ltb_lt in Elt. split; [lia|]. rewrite Hwdt.
        replace (li + Nat.min (start - li) (length content - li)
                 + length txt) with (start + length txt) by lia.
        assumption.
      * apply Nat.ltb_ge in Elt. split; [lia|]. rewrite Hwdt.
        replace (li + length txt) with (start + length txt) by lia.
        assumption.
    + rewrite Hcut, texts_app. unfold texts at 2. simpl. fold (texts more).
      rewrite Htx, Hwdt. f_equal.
      destruct (li <? start) eqn:Elt; unfold texts; simpl.
      * now rewrite app_nil_r.
      * apply Nat.ltb_ge in Elt. now replace (start - li) with 0 by lia.
    + apply Forall_app. split.
      * destruct (li <? start) eqn:Elt; [|constructor].
        apply Nat.ltb_lt in Elt.
        constructor; [|constructor]. split.
        -- rewrite Hsub. intros Hnil. apply (f_equal (@length _)) in Hnil.
           rewrite length_firstn, length_skipn in Hnil. simpl in Hnil. lia.
        -- rewrite Hsub, Hws, Hsepw. apply take_while_all.
      * constructor; [|assumption]. split; rewrite ?Hwdw, Hwdt; assumption.
    + assumption.
    + right. destruct Hlast as [-> | (pre & w & ->)].
      * exists (if li <? start then [sep] else []), txt.
        f_equal. subst wd. f_equal. f_equal.
        unfold texts in Htx. simpl in Htx. symmetry in Htx.
        apply (f_equal (@length _)) in Htx.
        rewrite length_firstn, length_skipn in Htx. simpl in Htx. lia.
      * exists ((if li <? start then [sep] else []) ++ wd :: pre), w.
        now rewrite <- app_assoc.
  - intros content li e els _ Hli. simpl.
    exists []. rewrite app_nil_r, Nat.sub_diag. simpl.
    repeat split; try lia; try constructor; auto.
    now apply exec_word_none.
Qed.


Lemma tokenize_loop_unfold content li els :
  tokenize_loop content li els =
  match exec_word content li with
  | Some (start, txt) =>
      tokenize_loop content (start + length txt)
        ((if li <? start
          then els ++ [mkToken (substring content (Z.of_nat li) (Z.of_nat start))
                               li false]
          else els) ++ [mkToken txt start true])
  | None => (li, els)
  end.
Proof.
  apply (tokenize_loop_elim
    (fun content li els res =>
       res = match exec_word content li with
             | Some (start, txt) =>
                 tokenize_loop content (start + length txt)
                   ((if li <? start
                     then els ++
                          [mkToken (substring content (Z.of_nat li) (Z.of_nat start))
                                   li false]
                     else els) ++ [mkToken txt start true])
             | None => (li, els)
             end)).
  - intros c l start txt e el _ _. now rewrite e.
  - intros c l e el _. now rewrite e.
Qed.

(** The result as a whole: the tokens of the loop, then the rest of the
    text, which is white space, as one more token when it is not empty. *)
Lemma tokenizedContent_spec content :
  exists stop more,
    stop <= length content /\
    tokenizedContent content =
      more ++ (if stop <? length content
               then [mkToken (skipn stop content) stop false] else []) /\
    placed 0 more /\
    texts more = firstn stop content /\
    Forall well_kinded more /\
    forallb is_space (skipn stop content) = true /\
    (more = [] \/ exists pre w, more = pre ++ [mkToken w (stop - length w) true]).
Proof.
  destruct (tokenize_loop_spec content 0 [] (Nat.le_0_l _))
    as (more & Hsnd & Hfst & Hpl & Htx & Hwk & Hsp & Hlast).
  unfold tokenizedContent.
  destruct (tokenize_loop content 0 []) as [stop els]. simpl in *.
  subst els. rewrite Nat.sub_0_r in Htx.
  exists stop, more. repeat split; try assumption; try lia.
  destruct (stop <? length content); [|now rewrite app_nil_r].
  now rewrite substring_from_of_nat.
Qed.

Lemma placed_middle base pre t post :
  placed base (pre ++ t :: post) -> index t = base + length (texts pre).
Proof. rewrite placed_app. simpl. tauto. Qed.

Lemma texts_total content : texts (tokenizedContent content) = content.
Proof.
  destruct (tokenizedContent_spec content)
    as (stop & more & Hstop & -> & _ & Htx & _).
  rewrite texts_app, Htx.
  destruct (stop <? length content) eqn:E.
  - unfold texts. simpl. rewrite app_nil_r. apply firstn_skipn.
  - apply Nat.ltb_ge in E. unfold texts. simpl.
    rewrite app_nil_r. apply firstn_all2. lia.
Qed.

Lemma placed_total content : placed 0 (tokenizedContent content).
Proof.
  destruct (tokenizedContent_spec content)
    as (stop & more & Hstop & -> & Hpl & Htx & _).
  apply placed_app. split; [assumption|].
  destruct (stop <? length content); simpl; [|exact I].
  rewrite Htx, length_firstn. split; [lia | exact I].
Qed.

Lemma substring_middle (a b c : jsstring) :
  substring (a ++ b ++ c) (Z.of_nat (length a))
            (Z.of_nat (length a) + Z.of_nat (length b)) = b.
Proof.
  rewrite <- Nat2Z.inj_add.
  rewrite substring_of_nat by (rewrite ?length_app; lia).
  rewrite skipn_app, skipn_all, Nat.sub_diag. simpl.
  replace (length a + length b - length a) with (length b) by lia.
  now rewrite firstn_app, Nat.sub_diag, firstn_all, firstn_O, app_nil_r.
Qed.

Lemma forallb_rev {A} (p : A -> bool) l : forallb p (rev l) = forallb p l.
Proof.
  induction l as [|x l IH]; simpl; [reflexivity|].
  rewrite forallb_app, IH. simpl. rewrite andb_true_r. apply andb_comm.
Qed.

End TokenizerFacts.

Import Tokenizer TokenizerFacts.

Example tokens_of_a_line :
  tokenizedContent (js " ab  c ") =
  [ mkToken (js " ") 0 false; mkToken (js "ab") 1 true;
    mkToken (js "  ") 3 false; mkToken (js "c") 5 true;
    mkToken (js " ") 6 false ].
Proof. reflexivity. Qed.

(** C3. The tokens cover the input exactly: their texts, concatenated in
    order, give the input back, and every token starts where the tokens
    before it end, which is where its text lies in the input. *)
Theorem tokenize_partitions_input (s : jsstring) :
  concat (map text (tokenizedContent s)) = s /\
  (forall pre t post,
     tokenizedContent s = pre ++ t :: post ->
     index t = length (concat (map text pre)) /\
     substring s (Z.of_nat (index t))
                 (Z.of_nat (index t) + Z.of_nat (length (text t))) = text t).
Proof.
  split; [apply texts_total|].
  intros pre t post E.
  pose proof (placed_total s) as Hpl. rewrite E in Hpl.
  apply placed_middle in Hpl. simpl in Hpl.
  split; [exact Hpl|].
  pose proof (texts_total s) as Htx. rewrite E, texts_app in Htx.
  unfold texts at 2 in Htx. simpl in Htx. fold (texts post) in Htx.
  rewrite Hpl. rewrite <- Htx at 1. apply substring_middle.
Qed.

Lemma tokenize_partitions_input_witness :
  concat (map text (tokenizedContent (js " ab  c "))) = js " ab  c " /\
  index (mkToken (js "c") 5 true) = 5 /\
  substring (js " ab  c ") 5 (5 + 1) = js "c".
Proof.
  destruct (tokenize_partitions_input (js " ab  c ")) as [H1 H2].
  split; [exact H1|].
  destruct (H2 [mkToken (js " ") 0 false; mkToken (js "ab") 1 true;
                mkToken (js "  ") 3 false]
               (mkToken (js "c") 5 true)
               [mkToken (js " ") 6 false] eq_refl) as [H3 H4].
  split; [exact H3 | exact H4].
Defined.

(** Boundary inputs of the tokenizer. *)

Lemma tokenize_empty : tokenizedContent [] = [].
Proof. reflexivity. Qed.

Lemma exec_word_at_end content : exec_word content (length content) = None.
Proof. unfold exec_word. now rewrite skipn_all. Qed.

Lemma tokenize_single_word s :
  s <> [] -> forallb is_nonspace s = true ->
  tokenizedContent s = [mkToken s 0 true].
Proof.
  intros Hne Hns. unfold tokenizedContent.
  rewrite tokenize_loop_unfold.
  assert (E : exec_word s 0 = Some (0, s)).
  { unfold exec_word. simpl skipn.
    destruct s as [|c s']; [congruence|].
    simpl in Hns. apply andb_prop in Hns as [Hc Hs'].
    assert (Hsp : is_space c = false)
      by (unfold is_nonspace in Hc; now destruct (is_space c)).
    rewrite (take_while_stop is_space c s' Hsp).
    simpl drop_while. rewrite Hsp.
    rewrite (take_while_id is_nonspace (c :: s'))
      by (simpl; now rewrite Hc, Hs').
    reflexivity. }
  rewrite E. simpl.
  rewrite tokenize_loop_unfold, exec_word_at_end.
  now rewrite Nat.ltb_irrefl.
Qed.

Lemma tokenize_leading_space s :
  take_while is_space s <> [] ->
  exists rest,
    tokenizedContent s = mkToken (take_while is_space s) 0 false :: rest.
Proof.
  intros Hws. unfold tokenizedContent. rewrite tokenize_loop_unfold.
  destruct (exec_word s 0) as [[start txt]|] eqn:E.
  - pose proof (exec_word_some _ _ _ _ E) as (_ & Hend & Hpre & _).
    simpl in Hpre. rewrite Nat.sub_0_r in Hpre.
    assert (Hpos : 0 < start).
    { destruct start; [|lia]. simpl in Hpre. congruence. }
    apply Nat.ltb_lt in Hpos as Hlt. rewrite Hlt.
    rewrite (substring_of_nat s 0) by lia.
    simpl skipn. rewrite Nat.sub_0_r, Hpre.
    destruct (tokenize_loop_spec s (start + length txt)
                ([] ++ [mkToken (take_while is_space s) 0 false] ++
                 [mkToken txt start true]) Hend) as (more & Hsnd & _).
    simpl app in *.
    destruct (tokenize_loop s (start + length txt) _) as [stop els].
    simpl in Hsnd. subst els.
    destruct (stop <? length s); simpl; eauto.
  - apply exec_word_none in E. simpl in E.
    rewrite (take_while_id _ _ E) in *.
    destruct s as [|c s']; [congruence|]. simpl. eauto.
Qed.

Lemma tokenize_trailing_space s :
  rev (take_while is_space (rev s)) <> [] ->
  exists front,
    tokenizedContent s =
    front ++ [mkToken (rev (take_while is_space (rev s)))
                      (length s - length (take_while is_space (rev s))) false].
Proof.
  intros Hws.
  destruct (tokenizedContent_spec s)
    as (stop & more & Hstop & -> & _ & Htx & Hwk & Hsp & Hlast).
  assert (Hhead : take_while is_space (rev (firstn stop s)) = []).
  { destruct Hlast as [-> | (pre & w & ->)].
    - unfold texts in Htx. simpl in Htx. now rewrite <- Htx.
    - rewrite <- Htx, texts_app. unfold texts at 2. simpl.
      rewrite app_nil_r, rev_app_distr.
      apply Forall_app in Hwk as [_ Hw]. inversion Hw as [|? ? [Hne Hns] _]; subst.
      simpl in Hne, Hns. rewrite <- forallb_rev in Hns.
      destruct (rev w) as [|c r] eqn:Er.
      + apply (f_equal (@rev _)) in Er. rewrite rev_involutive in Er.
        simpl in Er. congruence.
      + simpl in Hns. apply andb_prop in Hns as [Hc _]. simpl.
        unfold is_nonspace in Hc. now destruct (is_space c). }
  assert (Hrun : take_while is_space (rev s) = rev (skipn stop s)).
  { rewrite <- (firstn_skipn stop s) at 1. rewrite rev_app_distr.
    rewrite take_while_app by now rewrite forallb_rev.
    now rewrite Hhead, app_nil_r. }
  rewrite Hrun in *. rewrite rev_involutive in *.
  rewrite length_rev, length_skipn.
  destruct (stop <? length s) eqn:E.
  - exists more. do 3 f_equal. apply Nat.ltb_lt in E. lia.
  - apply Nat.ltb_ge in E. rewrite skipn_all2 in Hws by lia. congruence.
Qed.

(** ** Rendered surface *)

Module DomFacts.
Import Dom.

(** Induction over a tree, with the property known for all children. *)
Lemma node_induction (P : node -> Prop) :
  (forall d, P (Text d)) ->
  (forall tg cl cs, Forall P cs -> P (Element tg cl cs)) ->
  forall n, P n.
Proof.
  intros on_text on_element. fix IH 1. intros [d|tg cl cs].
  - apply on_text.
  - apply on_element. induction cs as [|c cs IHcs]; constructor.
    + apply IH.
    + exact IHcs.
Qed.

(** *** Paths *)

Lemma get_app p q n :
  get (p ++ q) n = match get p n with Some m => get q m | None => None end.
Proof.
  revert n. induction p as [|i p IH]; intros n; simpl; [reflexivity|].
  destruct n as [d|tg cl cs]; [reflexivity|].
  destruct (nth_error cs i); [apply IH | reflexivity].
Qed.

Lemma split_last_snoc pp i : split_last (pp ++ [i]) = Some (pp, i).
Proof.
  unfold split_last. rewrite rev_app_distr. simpl. now rewrite rev_involutive.
Qed.

Lemma split_last_some p pp i : split_last p = Some (pp, i) -> p = pp ++ [i].
Proof.
  unfold split_last. destruct (rev p) as [|j rp] eqn:E; [discriminate|].
  intros H. injection H as <- <-.
  apply (f_equal (@rev _)) in E. rewrite rev_involutive in E. exact E.
Qed.

Lemma split_last_none p : split_last p = None -> p = [].
Proof.
  unfold split_last. destruct (rev p) as [|j rp] eqn:E; [|discriminate].
  intros _. apply (f_equal (@rev _)) in E. now rewrite rev_involutive in E.
Qed.

Lemma get_child pp i root c :
  get (pp ++ [i]) root = Some c ->
  exists tg cl cs,
    get pp root = Some (Element tg cl cs) /\ nth_error cs i = Some c.
Proof.
  rewrite get_app. destruct (get pp root) as [[d|tg cl cs]|]; simpl;
    try discriminate.
  destruct (nth_error cs i) as [c'|] eqn:E; [|discriminate].
  intros H. injection H as ->. eauto.
Qed.

(** *** Changing one child *)

Lemma nth_error_split {A} (l : list A) i c :
  nth_error l i = Some c -> l = firstn i l ++ c :: skipn (S i) l.
Proof.
  revert i. induction l as [|x l IH]; intros [|i]; simpl; try discriminate.
  - now intros [= ->].
  - intros H. f_equal. now apply IH.
Qed.

Lemma list_update_split {A} (g : A -> A) (l : list A) i c :
  nth_error l i = Some c ->
  list_update i g l = firstn i l ++ g c :: skipn (S i) l.
Proof.
  revert i. induction l as [|x l IH]; intros [|i]; simpl; try discriminate.
  - now intros [= ->].
  - intros H. f_equal. now apply IH.
Qed.

Lemma list_update_ext {A} (g h : A -> A) i l :
  (forall x, g x = h x) -> list_update i g l = list_update i h l.
Proof.
  intros E. revert i. induction l as [|x l IH]; intros [|i]; simpl;
    try reflexivity; [now rewrite E | now rewrite IH].
Qed.

Lemma list_update_twice {A} (g h : A -> A) i l :
  list_update i h (list_update i g l) = list_update i (fun x => h (g x)) l.
Proof.
  revert i. induction l as [|x l IH]; intros [|i]; simpl;
    try reflexivity. now rewrite IH.
Qed.

Lemma nth_error_list_update {A} (g : A -> A) i l c :
  nth_error l i = Some c -> nth_error (list_update i g l) i = Some (g c).
Proof.
  revert i. induction l as [|x l IH]; intros [|i]; simpl; try discriminate.
  - now intros [= ->].
  - apply IH.
Qed.

Lemma length_firstn_nth {A} (l : list A) i c :
  nth_error l i = Some c -> length (firstn i l) = i.
Proof.
  intros H. rewrite length_firstn.
  assert (i < length l) by (apply nth_error_Some; congruence). lia.
Qed.

(** *** Marks and text under a change at a path *)

Lemma marks_app a b : marks (a ++ b) = marks a + marks b.
Proof. unfold marks. now rewrite map_app, list_sum_app. Qed.

Lemma text_of_app a b : text_of (a ++ b) = text_of a ++ text_of b.
Proof. unfold text_of. now rewrite map_app, concat_app. Qed.

Lemma count_update_at p f root m :
  get p root = Some m ->
  count_marks (update_at p f root) + count_marks m =
  count_marks root + count_marks (f m).
Proof.
  revert root. induction p as [|i p IH]; intros root; simpl.
  - intros [= ->]. lia.
  - destruct root as [d|tg cl cs]; [discriminate|].
    destruct (nth_error cs i) as [c|] eqn:E; [|discriminate].
    intros H. specialize (IH c H).
    change (count_marks (Element tg cl (list_update i (update_at p f) cs)))
      with ((if is_highlight tg cl then 1 else 0) +
            marks (list_update i (update_at p f) cs)).
    change (count_marks (Element tg cl cs))
      with ((if is_highlight tg cl then 1 else 0) + marks cs).
    assert (Hcs : marks cs =
                  marks (firstn i cs) + (count_marks c + marks (skipn (S i) cs))).
    { rewrite (nth_error_split _ _ _ E) at 1. now rewrite marks_app. }
    rewrite (list_update_split _ _ _ _ E), marks_app, Hcs.
    change (marks (update_at p f c :: skipn (S i) cs))
      with (count_marks (update_at p f c) + marks (skipn (S i) cs)).
    lia.
Qed.

Lemma text_update_at p f root m :
  get p root = Some m ->
  textContent (f m) = textContent m ->
  textContent (update_at p f root) = textContent root.
Proof.
  revert root. induction p as [|i p IH]; intros root; simpl.
  - now intros [= ->].
  - destruct root as [d|tg cl cs]; [discriminate|].
    destruct (nth_error cs i) as [c|] eqn:E; [|discriminate].
    intros H Hf. specialize (IH c H Hf).
    change (textContent (Element tg cl (list_update i (update_at p f) cs)))
      with (text_of (list_update i (update_at p f) cs)).
    change (textContent (Element tg cl cs)) with (text_of cs).
    assert (Hcs : text_of cs =
                  text_of (firstn i cs) ++ textContent c ++ text_of (skipn (S i) cs)).
    { rewrite (nth_error_split _ _ _ E) at 1. now rewrite text_of_app. }
    rewrite (list_update_split _ _ _ _ E), text_of_app, Hcs.
    change (text_of (update_at p f c :: skipn (S i) cs))
      with (textContent (update_at p f c) ++ text_of (skipn (S i) cs)).
    now rewrite IH.
Qed.

Lemma get_update_at p f root m :
  get p root = Some m -> get p (update_at p f root) = Some (f m).
Proof.
  revert root. induction p as [|i p IH]; intros root; simpl.
  - now intros [= ->].
  - destruct root as [d|tg cl cs]; [discriminate|].
    destruct (nth_error cs i) as [c|] eqn:E; [|discriminate].
    intros H. rewrite (nth_error_list_update _ _ _ _ E). now apply IH.
Qed.

Lemma update_at_twice p f g root :
  update_at p g (update_at p f root) = update_at p (fun n => g (f n)) root.
Proof.
  revert root. induction p as [|i p IH]; intros root; simpl; [reflexivity|].
  destruct root as [d|tg cl cs]; [reflexivity|].
  rewrite list_update_twice. f_equal. apply list_update_ext. apply IH.
Qed.

Lemma update_at_ext p f g root m :
  get p root = Some m -> f m = g m -> update_at p f root = update_at p g root.
Proof.
  revert root. induction p as [|i p IH]; intros root; simpl.
  - now intros [= ->].
  - destruct root as [d|tg cl cs]; [discriminate|].
    destruct (nth_error cs i) as [c|] eqn:E; [|discriminate].
    intros H Hfg. f_equal.
    rewrite !(list_update_split _ _ _ _ E). do 2 f_equal. now apply IH.
Qed.

Lemma update_at_id p f root m :
  get p root = Some m -> f m = m -> update_at p f root = root.
Proof.
  revert root. induction p as [|i p IH]; intros root; simpl.
  - now intros [= ->].
  - destruct root as [d|tg cl cs]; [discriminate|].
    destruct (nth_error cs i) as [c|] eqn:E; [|discriminate].
    intros H Hf. f_equal.
    rewrite (list_update_split _ _ _ _ E), (IH c H Hf).
    symmetry. now apply nth_error_split.
Qed.

(** *** [normalize] *)

Lemma marks_merge_text cs : marks (merge_text cs) = marks cs.
Proof.
  induction cs as [|c cs IH]; [reflexivity|].
  destruct c as [d|tg cl ch].
  - simpl. destruct d as [|x d]; [exact IH|].
    unfold marks in *. simpl. rewrite <- IH.
    destruct (merge_text cs) as [|[d'|tg cl ch] r]; reflexivity.
  - unfold marks in *. simpl. now rewrite IH.
Qed.

Lemma text_merge_text cs : text_of (merge_text cs) = text_of cs.
Proof.
  induction cs as [|c cs IH]; [reflexivity|].
  destruct c as [d|tg cl ch].
  - simpl. destruct d as [|x d]; [exact IH|].
    unfold text_of in *. simpl. rewrite <- IH.
    destruct (merge_text cs) as [|[d'|tg cl ch] r]; simpl;
      try reflexivity. now rewrite <- app_assoc.
  - unfold text_of in *. simpl. now rewrite IH.
Qed.

Lemma count_normalize n : count_marks (normalize n) = count_marks n.
Proof.
  induction n as [d|tg cl cs IH] using node_induction; [reflexivity|].
  simpl. f_equal. fold (marks (merge_text (map normalize cs))).
  rewrite marks_merge_text. unfold marks. rewrite map_map.
  f_equal. apply map_ext_Forall. exact IH.
Qed.

Lemma text_normalize n : textContent (normalize n) = textContent n.
Proof.
  induction n as [d|tg cl cs IH] using node_induction; [reflexivity|].
  simpl. fold (text_of (merge_text (map normalize cs))).
  rewrite text_merge_text. unfold text_of. rewrite map_map.
  f_equal. apply map_ext_Forall. exact IH.
Qed.

(** *** The tree walker *)

Lemma in_flat_mapi {A B} (f : nat -> A -> list B) i0 l x :
  In x (flat_mapi f i0 l) ->
  exists k c, nth_error l k = Some c /\ In x (f (i0 + k) c).
Proof.
  revert i0. induction l as [|c l IH]; intros i0; simpl; [tauto|].
  rewrite in_app_iff. intros [H|H].
  - exists 0, c. rewrite Nat.add_0_r. auto.
  - destruct (IH _ H) as (k & c' & Hk & Hin).
    exists (S k), c'. rewrite Nat.add_succ_r. auto.
Qed.

Lemma text_nodes_get n :
  forall here p d,
    In (p, d) (text_nodes here n) ->
    exists q, p = here ++ q /\ get q n = Some (Text d).
Proof.
  induction n as [d0|tg cl cs IH] using node_induction; intros here p d; simpl.
  - intros [[= <- <-]|[]]. exists []. now rewrite app_nil_r.
  - intros H. apply in_flat_mapi in H as (k & c & Hk & Hin). simpl in Hin.
    rewrite Forall_forall in IH.
    destruct (IH c (nth_error_In _ _ Hk) _ _ _ Hin) as (q & -> & Hq).
    exists (k :: q). rewrite <- app_assoc. simpl. now rewrite Hk.
Qed.

Lemma createTreeWalker_get root p d :
  In (p, d) (createTreeWalker root) ->
  get p root = Some (Text d) /\ p <> [].
Proof.
  destruct root as [d0|tg cl cs]; simpl; [tauto|].
  intros H.
  apply (text_nodes_get (Element tg cl cs) []) in H as (q & -> & Hq).
  simpl. split; [exact Hq|]. intros ->. discriminate.
Qed.

Lemma text_flat_mapi (f : nat -> node -> list (path * jsstring)) i0 cs :
  Forall (fun c => forall i, concat (map snd (f i c)) = textContent c) cs ->
  concat (map snd (flat_mapi f i0 cs)) = text_of cs.
Proof.
  intros H. revert i0. induction H as [|c cs Hc _ IH]; intros i0; simpl;
    [reflexivity|].
  rewrite map_app, concat_app, Hc, IH. reflexivity.
Qed.

Lemma text_nodes_text n :
  forall here, concat (map snd (text_nodes here n)) = textContent n.
Proof.
  induction n as [d0|tg cl cs IH] using node_induction; intros here; simpl.
  - apply app_nil_r.
  - apply text_flat_mapi. revert IH. apply Forall_impl. intros c Hc i. apply Hc.
Qed.

Lemma createTreeWalker_length root :
  length (concat (map snd (createTreeWalker root))) <= length (textContent root).
Proof.
  destruct root as [d|tg cl cs]; unfold createTreeWalker; [simpl; lia|].
  rewrite (text_nodes_text (Element tg cl cs) []). lia.
Qed.

(** *** The search loop *)

Lemma find_node_none nodes charCount i :
  (charCount + Z.of_nat (length (concat (map snd nodes))) <= i)%Z ->
  find_node nodes charCount i = None.
Proof.
  revert charCount. induction nodes as [|[p d] nodes IH]; intros cc; simpl;
    [reflexivity|].
  rewrite length_app, Nat2Z.inj_add. intros H.
  destruct (cc + Z.of_nat (length d) >? i)%Z eqn:E.
  - apply Z.gtb_lt in E. lia.
  - apply IH. lia.
Qed.

Lemma find_node_some nodes charCount i p d cc :
  find_node nodes charCount i = Some (p, d, cc) ->
  In (p, d) nodes /\ (cc + Z.of_nat (length d) > i)%Z.
Proof.
  revert charCount. induction nodes as [|[q e] nodes IH]; intros c0; simpl;
    [discriminate|].
  destruct (c0 + Z.of_nat (length e) >? i)%Z eqn:E.
  - intros [= -> -> ->]. apply Z.gtb_lt in E. split; [auto | lia].
  - intros H. destruct (IH _ H). auto.
Qed.

(** *** One highlight at most *)
Lemma count_splice_child i repl tg cl cs c :
  nth_error cs i = Some c ->
  count_marks (splice_child i repl (Element tg cl cs)) + count_marks c =
  count_marks (Element tg cl cs) + marks repl.
Proof.
  intros E.
  change (count_marks (Element tg cl cs))
    with ((if is_highlight tg cl then 1 else 0) + marks cs).
  change (count_marks (splice_child i repl (Element tg cl cs)))
    with ((if is_highlight tg cl then 1 else 0) +
          marks (firstn i cs ++ repl ++ skipn (S i) cs)).
  assert (Hcs : marks cs =
                marks (firstn i cs) + (count_marks c + marks (skipn (S i) cs))).
  { rewrite (nth_error_split _ _ _ E) at 1. now rewrite marks_app. }
  rewrite !marks_app, Hcs. lia.
Qed.

Lemma text_splice_child i repl tg cl cs c :
  nth_error cs i = Some c ->
  text_of repl = textContent c ->
  textContent (splice_child i repl (Element tg cl cs)) =
  textContent (Element tg cl cs).
Proof.
  intros E Hr.
  change (textContent (Element tg cl cs)) with (text_of cs).
  change (textContent (splice_child i repl (Element tg cl cs)))
    with (text_of (firstn i cs ++ repl ++ skipn (S i) cs)).
  rewrite (nth_error_split _ _ _ E) at 3.
  rewrite !text_of_app, Hr. reflexivity.
Qed.

Lemma cleanup_text root href :
  textContent (cleanup root href) = textContent root.
Proof.
  destruct href as [p|]; [|reflexivity]. simpl.
  destruct (split_last p) as [[pp i]|] eqn:Es; [|reflexivity].
  destruct (get p root) as [old|] eqn:Eg; [|reflexivity].
  apply split_last_some in Es. subst p.
  destruct (get_child _ _ _ _ Eg) as (tg & cl & cs & Hpp & Hi).
  apply (text_update_at _ _ _ _ Hpp).
  rewrite text_normalize. apply (text_splice_child _ _ _ _ _ _ Hi).
  unfold text_of. simpl. apply app_nil_r.
Qed.

Lemma cleanup_count root href :
  tidy root href -> count_marks (cleanup root href) = 0.
Proof.
  destruct href as [p|]; simpl; [|tauto].
  intros (Hone & pp & i & w & -> & Hg).
  rewrite split_last_snoc, Hg.
  destruct (get_child _ _ _ _ Hg) as (tg & cl & cs & Hpp & Hi).
  pose proof (count_update_at pp
    (fun parent => normalize (splice_child i [Text (textContent (the_mark w))] parent))
    root _ Hpp) as Hc.
  cbv beta in Hc. rewrite count_normalize in Hc.
  pose proof (count_splice_child i [Text (textContent (the_mark w))] tg cl cs _ Hi)
    as Hs.
  pose proof (count_update_at pp (fun n => n) root _ Hpp) as Hid.
  assert (Hm : count_marks (the_mark w) = 1) by reflexivity.
  unfold marks in Hs. simpl list_sum in Hs.
  rewrite Hm in Hs. lia.
Qed.

(** The range of the effect lies in the node and is not reversed. *)
Lemma boundary_offset_ok d o :
  (0 <= o <= Z.of_nat (length d))%Z ->
  exists n, boundary_offset d o = Normal n /\ n <= length d.
Proof.
  intros H. unfold boundary_offset, to_unsigned_long.
  assert (Hm : (0 <= o mod 2 ^ 32 <= o)%Z).
  { split; [apply Z.mod_pos_bound; lia | apply Z.mod_le; lia]. }
  destruct (o mod 2 ^ 32 >? Z.of_nat (length d))%Z eqn:E.
  - apply Z.gtb_lt in E. lia.
  - eexists. split; [reflexivity|]. lia.
Qed.

Lemma range_ok d o wl :
  (0 <= o)%Z -> (0 <= wl)%Z -> (o + wl <= Z.of_nat (length d))%Z ->
  exists r0 r,
    setStart d o = Normal r0 /\
    setEnd d (o + wl) r0 = Normal r /\
    startOffset r <= endOffset r.
Proof.
  intros Ho Hwl Hle. unfold setStart, setEnd.
  destruct (boundary_offset_ok d o) as (a & -> & _); [lia|].
  destruct (boundary_offset_ok d (o + wl)) as (b & -> & _); [lia|].
  cbn [bind]. do 2 eexists. split; [reflexivity|]. split; [reflexivity|].
  cbn [startOffset]. destruct (b <? a) eqn:E; cbn [startOffset endOffset]; [lia|].
  apply Nat.ltb_ge in E. exact E.
Qed.

Lemma wordLength_pos s : (0 < wordLength s)%Z.
Proof.
  unfold wordLength. destruct (take_while is_word_char s); simpl; lia.
Qed.

Lemma three_parts (d : jsstring) a b :
  a <= b -> firstn a d ++ firstn (b - a) (skipn a d) ++ skipn b d = d.
Proof.
  intros H. rewrite <- (firstn_skipn a d) at 4.
  f_equal. rewrite <- (firstn_skipn (b - a) (skipn a d)) at 2.
  f_equal. rewrite skipn_skipn. f_equal. lia.
Qed.

Lemma surround_accepts root p d r :
  get p root = Some (Text d) -> p <> [] ->
  startOffset r <= endOffset r ->
  exists root2 pp i,
    surroundContents false root p r = Normal (root2, pp ++ [S i]) /\
    p = pp ++ [i] /\
    count_marks root2 = S (count_marks root) /\
    textContent root2 = textContent root /\
    get (pp ++ [S i]) root2 =
      Some (the_mark (firstn (endOffset r - startOffset r)
                             (skipn (startOffset r) d))).
Proof.
  intros Hg Hne Hr. unfold surroundContents.
  destruct (split_last p) as [[pp i]|] eqn:Es;
    [|apply split_last_none in Es; contradiction].
  apply split_last_some in Es. subst p. rewrite Hg.
  destruct (get_child _ _ _ _ Hg) as (tg & cl & cs & Hpp & Hi).
  set (w := firstn (endOffset r - startOffset r) (skipn (startOffset r) d)).
  set (repl := [Text (firstn (startOffset r) d); Element "mark" "tts-highlight" [Text w];
                Text (skipn (endOffset r) d)]).
  exists (update_at pp (splice_child i repl) root), pp, i.
  split; [reflexivity|]. split; [reflexivity|].
  pose proof (count_update_at pp (splice_child i repl) root _ Hpp) as Hc.
  pose proof (count_splice_child i repl tg cl cs _ Hi) as Hs.
  split; [|split].
  - unfold marks in Hs. simpl in Hs, Hc. simpl. lia.
  - apply (text_update_at _ _ _ _ Hpp).
    apply (text_splice_child _ _ _ _ _ _ Hi).
    unfold text_of, repl. simpl. rewrite !app_nil_r.
    unfold w. now apply three_parts.
  - rewrite get_app, (get_update_at _ (splice_child i repl) _ _ Hpp).
    unfold splice_child. cbn [get].
    rewrite nth_error_app2; rewrite (length_firstn_nth _ _ _ Hi); [|lia].
    replace (S i - i) with 1 by lia. reflexivity.
Qed.

(** *** The effect, case by case *)

(** Either there is no container and nothing happens; or the previous mark
    is cleaned up and nothing is applied; or the cleaned tree receives one
    mark around a range of one of its text nodes. *)
Lemma highlightEffect_cases host i playing v :
  (container v = None /\ highlightEffect host i playing v = Normal v) \/
  exists root,
    container v = Some root /\
    (highlightEffect host i playing v =
       Normal (mkViewer (Some (cleanup root (highlightRef v))) None (scrolls v))
     \/
     host = false /\ (0 <= i)%Z /\ playing = true /\
     (i < Z.of_nat (length (textContent root)))%Z /\
     exists p d r root2 mark,
       get p (cleanup root (highlightRef v)) = Some (Text d) /\ p <> [] /\
       startOffset r <= endOffset r /\
       surroundContents false (cleanup root (highlightRef v)) p r =
         Normal (root2, mark) /\
       highlightEffect host i playing v =
         Normal (mkViewer (Some root2) (Some mark) (S (scrolls v)))).
Proof.
  unfold highlightEffect.
  destruct (container v) as [root|]; [right|left; auto].
  exists root. split; [reflexivity|].
  set (root1 := cleanup root (highlightRef v)).
  destruct (i <? 0)%Z eqn:Ei; [left; reflexivity|].
  destruct playing; [|left; reflexivity]. simpl orb. cbv iota.
  destruct (find_node (createTreeWalker root1) 0 i) as [[[p d] cc]|] eqn:Ef;
    [|left; reflexivity].
  set (offset := Z.max 0 (i - cc)).
  destruct (offset + wordLength (substring_from d offset) <=? Z.of_nat (length d))%Z
    eqn:Eg; [|left; reflexivity].
  apply Z.leb_le in Eg. apply Z.ltb_ge in Ei.
  pose proof (wordLength_pos (substring_from d offset)) as Hwl.
  destruct (range_ok d offset (wordLength (substring_from d offset)))
    as (r0 & r & -> & Hend & Hr); [lia|lia|lia|].
  cbn [bind]. rewrite Hend. cbn [bind].
  destruct host; [left; reflexivity|].
  assert (Hlt : (i < Z.of_nat (length (textContent root)))%Z).
  { destruct (Z_lt_le_dec i (Z.of_nat (length (textContent root)))) as [|Hge];
      [assumption|exfalso].
    pose proof (createTreeWalker_length root1) as Hlen.
    unfold root1 in Hlen at 2. rewrite cleanup_text in Hlen.
    rewrite find_node_none in Ef; [discriminate|].
    rewrite Z.add_0_l.
    eapply Z.le_trans; [apply Nat2Z.inj_le; exact Hlen | exact Hge]. }
  apply find_node_some in Ef as [Hin Hgt].
  apply createTreeWalker_get in Hin as [Hget Hne].
  destruct (surround_accepts _ _ _ _ Hget Hne Hr)
    as (root2 & pp & k & Hs & _).
  rewrite Hs. right.
  repeat split; try lia.
  exists p, d, r, root2, (pp ++ [S k]). auto.
Qed.

(** *** Removing the mark restores the tree *)

Lemma merge_text_join x y rest :
  merge_text (Text x :: Text y :: rest) = merge_text (Text (x ++ y) :: rest).
Proof.
  simpl. destruct x as [|a x]; simpl; [reflexivity|].
  destruct y as [|b y]; simpl.
  - now rewrite app_nil_r.
  - destruct (merge_text rest) as [|[d'|tg cl ch] r]; try reflexivity.
    now rewrite <- app_assoc.
Qed.

Lemma merge_text_cons e a b :
  merge_text a = merge_text b -> merge_text (e :: a) = merge_text (e :: b).
Proof. intros H. destruct e as [d|tg cl ch]; simpl; now rewrite H. Qed.

Lemma merge_text_rejoin l1 l2 b w a :
  merge_text (l1 ++ [Text b; Text w; Text a] ++ l2) =
  merge_text (l1 ++ [Text (b ++ w ++ a)] ++ l2).
Proof.
  induction l1 as [|e l1 IH]; [|now apply merge_text_cons].
  cbn [app]. rewrite merge_text_join.
  rewrite merge_text_join. now rewrite <- app_assoc.
Qed.

Lemma normalized_children tg cl cs :
  normalized (Element tg cl cs) <-> merge_text cs = cs /\ Forall normalized cs.
Proof.
  cbn [normalized]. apply and_iff_compat_l.
  induction cs as [|c cs IH]; [split; auto|].
  rewrite IH. split; [intros []; auto | intros H; inversion H; auto].
Qed.

Lemma normalize_fixed n : normalized n -> normalize n = n.
Proof.
  induction n as [d|tg cl cs IH] using node_induction; [reflexivity|].
  rewrite normalized_children. intros [Hm Hcs]. cbn [normalize].
  assert (Hmap : map normalize cs = cs).
  { clear Hm. induction cs as [|c cs IHcs]; [reflexivity|].
    inversion IH; inversion Hcs; subst. simpl. f_equal; auto. }
  now rewrite Hmap, Hm.
Qed.

Lemma normalized_get p :
  forall root m, normalized root -> get p root = Some m -> normalized m.
Proof.
  induction p as [|i p IH]; intros root m Hn; simpl.
  - now intros [= <-].
  - destruct root as [d|tg cl cs]; [discriminate|].
    destruct (nth_error cs i) as [c|] eqn:E; [|discriminate].
    apply normalized_children in Hn as [_ Hcs].
    rewrite Forall_forall in Hcs.
    apply IH. apply Hcs. eapply nth_error_In; eassumption.
Qed.

Lemma cleanup_after_surround root p d r root2 mark :
  normalized root ->
  get p root = Some (Text d) -> p <> [] ->
  startOffset r <= endOffset r ->
  surroundContents false root p r = Normal (root2, mark) ->
  cleanup root2 (Some mark) = root.
Proof.
  intros Hn Hg Hne Hr Hs.
  destruct (surround_accepts _ _ _ _ Hg Hne Hr)
    as (root2' & pp & i & Hs' & -> & _ & _ & Hmark).
  rewrite Hs in Hs'. injection Hs' as -> ->.
  destruct (get_child _ _ _ _ Hg) as (tg & cl & cs & Hpp & Hi).
  unfold cleanup. rewrite split_last_snoc, Hmark.
  unfold surroundContents in Hs. rewrite split_last_snoc, Hg in Hs.
  injection Hs as <-.
  rewrite update_at_twice.
  apply (update_at_id _ _ _ _ Hpp).
  pose proof (normalized_get _ _ _ Hn Hpp) as Hparent.
  rewrite <- (normalize_fixed _ Hparent) at 2.
  apply normalized_children in Hparent as [_ Hcs].
  unfold splice_child. cbn [normalize]. f_equal.
  pose proof (length_firstn_nth _ _ _ Hi) as Hlen.
  set (l1 := firstn i cs) in *. set (l2 := skipn (S i) cs).
  set (b := firstn (startOffset r) d).
  set (a := skipn (endOffset r) d).
  set (x := firstn (endOffset r - startOffset r) (skipn (startOffset r) d)).
  assert (Hfirst : firstn (S i) (l1 ++ [Text b; the_mark x; Text a] ++ l2) =
                   l1 ++ [Text b]).
  { rewrite firstn_app, Hlen. replace (S i - i) with 1 by lia.
    rewrite firstn_all2 by lia. reflexivity. }
  assert (Hrest : skipn (S (S i)) (l1 ++ [Text b; the_mark x; Text a] ++ l2) =
                  [Text a] ++ l2).
  { rewrite skipn_app, Hlen. replace (S (S i) - i) with 2 by lia.
    rewrite skipn_all2 by lia. reflexivity. }
  fold (the_mark x). rewrite Hfirst, Hrest.
  assert (Hx : textContent (the_mark x) = x) by (simpl; apply app_nil_r).
  rewrite Hx.
  assert (Hsplit : cs = l1 ++ [Text (b ++ x ++ a)] ++ l2).
  { unfold b, x, a. rewrite three_parts by assumption.
    now apply nth_error_split. }
  replace (merge_text (map normalize cs))
    with (merge_text (map normalize (l1 ++ [Text (b ++ x ++ a)] ++ l2)))
    by (now rewrite <- Hsplit).
  rewrite <- !app_assoc, !map_app. cbn [map normalize app].
  apply (merge_text_rejoin (map normalize l1) (map normalize l2)).
Qed.

(** *** What every run of the effect maintains *)

Lemma tidy_count root href : tidy root href -> count_marks root <= 1.
Proof. destruct href; simpl; [intros [-> _]; lia | intros ->; lia]. Qed.

Lemma highlightEffect_maintains root0 host i playing v :
  maintained root0 v ->
  exists v',
    highlightEffect host i playing v = Normal v' /\
    maintained root0 v' /\
    (host = true \/ (i < 0)%Z \/ playing = false \/
     (Z.of_nat (length (textContent root0)) <= i)%Z ->
     highlightRef v' = None).
Proof.
  intros (root & Hc & Htidy & Htext & Hback).
  pose proof (cleanup_count _ _ Htidy) as Hzero.
  pose proof (cleanup_text root (highlightRef v)) as Hsame.
  destruct (highlightEffect_cases host i playing v)
    as [[Hnone _] | (root' & Hc' & [He | (Hh & Hi & Hp & Hlt & p & d & r & root2 & mark & Hg & Hne & Hr & Hs & He)])];
    [congruence| |]; rewrite Hc in Hc'; injection Hc' as <-.
  - eexists. split; [exact He|]. split; [|reflexivity].
    exists (cleanup root (highlightRef v)). simpl.
    repeat split; [assumption | congruence | assumption].
  - eexists. split; [exact He|]. split.
    + destruct (surround_accepts _ _ _ _ Hg Hne Hr)
        as (root2' & pp & k & Hs' & -> & Hcount & Htext2 & Hmark).
      rewrite Hs in Hs'. injection Hs' as -> ->.
      exists root2'. simpl. repeat split.
      * lia.
      * eauto.
      * congruence.
      * intros Hn. specialize (Hback Hn).
        rewrite Hback in Hg, Hs.
        apply (cleanup_after_surround _ _ _ _ _ _ Hn Hg Hne Hr Hs).
    + rewrite Htext in Hlt. intros [->|[H|[->|H]]]; try congruence; lia.
Qed.

Lemma run_effects_maintains root0 runs :
  forall v, maintained root0 v ->
  exists v', run_effects runs v = Normal v' /\ maintained root0 v'.
Proof.
  induction runs as [|[[host i] playing] runs IH]; intros v Hv; simpl.
  - eauto.
  - destruct (highlightEffect_maintains root0 host i playing v Hv)
      as (v1 & -> & Hv1 & _).
    simpl. apply IH. exact Hv1.
Qed.

Lemma maintained_initially root scrolled :
  count_marks root = 0 -> maintained root (mkViewer (Some root) None scrolled).
Proof. intros H. exists root. simpl. auto. Qed.

End DomFacts.

Import Dom DomFacts App Page Scenario.

(** Offset 6 of the sample surface lies in its first text node: the word
    there is wrapped, the node is split around it. *)
Example highlight_at_6 :
  highlightEffect false 6 true (mkViewer (Some sample_surface) None 0) =
  Normal
    (mkViewer
       (Some (Element "div" "prose"
          [ Element "p" ""
              [ Text (js "alpha "); the_mark (js "beta"); Text (js " ");
                Element "em" "" [Text (js "gamma")] ];
            Text (js " tail") ]))
       (Some [0; 1]) 1).
Proof. reflexivity. Qed.

(** The next run removes the mark before it looks for offset 11, which it
    finds in the emphasised word. *)
Example highlight_at_6_then_11 :
  run_effects [(false, 6%Z, true); (false, 11%Z, true)]
    (mkViewer (Some sample_surface) None 0) =
  Normal
    (mkViewer
       (Some (Element "div" "prose"
          [ Element "p" ""
              [ Text (js "alpha beta ");
                Element "em" "" [Text []; the_mark (js "gamma"); Text []] ];
            Text (js " tail") ]))
       (Some [0; 1; 1]) 2).
Proof. reflexivity. Qed.

(** C5. Whatever runs of the highlight effect have taken place on a
    freshly rendered surface, at most one mark is present and the text of
    the surface is what was rendered.  The next run begins by removing
    that mark: it behaves as it would on the cleaned tree, which has no
    mark, has the rendered text, and is the rendered tree itself when that
    tree had no empty or adjacent text nodes. *)
Theorem highlight_is_exclusive (root : node) (runs : list (bool * Z * bool)) :
  count_marks root = 0 ->
  exists v' root',
    run_effects runs (mkViewer (Some root) None 0) = Normal v' /\
    container v' = Some root' /\
    count_marks root' <= 1 /\
    textContent root' = textContent root /\
    (forall host i playing,
       highlightEffect host i playing v' =
       highlightEffect host i playing
         (mkViewer (Some (cleanup root' (highlightRef v'))) None (scrolls v'))) /\
    count_marks (cleanup root' (highlightRef v')) = 0 /\
    textContent (cleanup root' (highlightRef v')) = textContent root /\
    (normalized root -> cleanup root' (highlightRef v') = root).
Proof.
  intros Hzero.
  destruct (run_effects_maintains root runs _ (maintained_initially root 0 Hzero))
    as (v' & Hrun & root' & Hc & Htidy & Htext & Hback).
  exists v', root'. repeat split; try assumption.
  - now apply tidy_count with (href := highlightRef v').
  - intros host i playing. unfold highlightEffect. now rewrite Hc.
  - now apply cleanup_count.
  - now rewrite cleanup_text.
Qed.

Lemma highlight_is_exclusive_witness :
  exists v' root',
    run_effects [(false, 6%Z, true); (false, 11%Z, true); (true, 0%Z, true)]
      (mkViewer (Some sample_surface) None 0) = Normal v' /\
    container v' = Some root' /\
    count_marks root' <= 1 /\
    textContent root' = textContent sample_surface /\
    (forall host i playing,
       highlightEffect host i playing v' =
       highlightEffect host i playing
         (mkViewer (Some (cleanup root' (highlightRef v'))) None (scrolls v'))) /\
    count_marks (cleanup root' (highlightRef v')) = 0 /\
    textContent (cleanup root' (highlightRef v')) = textContent sample_surface /\
    (normalized sample_surface -> cleanup root' (highlightRef v') = sample_surface).
Proof.
  apply (highlight_is_exclusive sample_surface). reflexivity.
Defined.

(** C7. A run of the highlight effect never raises: the commit leaves the
    world, and with it the engine, as it was.  When the offset maps to no
    text node (negative, at or past the end of the text, or playback not
    active) or the host refuses to wrap the range, the run ends with no
    mark in the tree and no reference to one. *)
Theorem highlight_failure_is_silent (host : bool) (pg : Page) :
  exists v',
    highlightEffect host (currentWordIndex (app (world pg)))
      (isPlaying (app (world pg))) (viewer pg) = Normal v' /\
    commit host pg = mkPage (world pg) v' /\
    (forall root,
       container (viewer pg) = Some root ->
       tidy root (highlightRef (viewer pg)) ->
       host = true \/
       (currentWordIndex (app (world pg)) < 0)%Z \/
       isPlaying (app (world pg)) = false \/
       (Z.of_nat (length (textContent root)) <=
        currentWordIndex (app (world pg)))%Z ->
       highlightRef v' = None /\
       exists root', container v' = Some root' /\ count_marks root' = 0).
Proof.
  set (i := currentWordIndex (app (world pg))).
  set (playing := isPlaying (app (world pg))).
  destruct (highlightEffect_cases host i playing (viewer pg))
    as [[Hnone He] | (root & Hc & [He | (Hh & Hi & Hp & Hlt & p & d & r & root2 & mark & _ & _ & _ & _ & He)])].
  - exists (viewer pg). split; [exact He|]. split.
    + unfold commit. fold i playing. now rewrite He.
    + intros root Hc. congruence.
  - eexists. split; [exact He|]. split.
    + unfold commit. fold i playing. now rewrite He.
    + intros root' Hc' Htidy _. rewrite Hc in Hc'. injection Hc' as <-.
      split; [reflexivity|]. eexists. split; [reflexivity|].
      now apply cleanup_count.
  - eexists. split; [exact He|]. split.
    + unfold commit. fold i playing. now rewrite He.
    + intros root' Hc' _ Hmiss. rewrite Hc in Hc'. injection Hc' as <-.
      exfalso. destruct Hmiss as [->|[H|[H|H]]]; try congruence; lia.
Qed.

Lemma highlight_failure_is_silent_witness :
  exists v',
    highlightEffect true 6 true (mkViewer (Some sample_surface) None 0) =
      Normal v' /\
    highlightRef v' = None /\
    exists root', container v' = Some root' /\ count_marks root' = 0.
Proof.
  destruct (highlight_failure_is_silent true
              (mkPage (setCurrentWordIndex 6 (setIsPlaying true initial))
                      (mkViewer (Some sample_surface) None 0)))
    as (v' & He & _ & Hmiss).
  exists v'. split; [exact He|].
  apply (Hmiss sample_surface eq_refl eq_refl). left. reflexivity.
Defined.

(** ** Narration controls *)

Module AppFacts.
Import App.

Lemma startReading_cases r o w :
  startReading r o w = w \/
  startReading r o w = alert w \/
  startReading r o w = cancel w \/
  exists t, viewerText w = Some t /\
    startReading r o w =
    speak (utterance_for r o t) (set_utteranceRef (utterance_for r o t) (cancel w)).
Proof.
  unfold startReading.
  destruct (file r); [|auto].
  destruct (viewerText w) as [t|] eqn:Et; [|auto].
  destruct (supported w); simpl; [|auto].
  destruct (blank t); [auto|].
  destruct (blank (substring_from t o)); [auto|].
  right. right. right. exists t. auto.
Qed.

Lemma startReading_starts r o w :
  starts r o w ->
  exists t, viewerText w = Some t /\
    startReading r o w =
    speak (utterance_for r o t) (set_utteranceRef (utterance_for r o t) (cancel w)).
Proof.
  intros (Hf & Hs & t & Ht & Hb & Hbs). exists t. split; [exact Ht|].
  unfold startReading. destruct (file r); [|congruence].
  now rewrite Ht, Hs, Hb, Hbs.
Qed.

(** Without a non-blank slice, [startReading] calls the engine at most to
    cancel. *)
Lemma startReading_blank r o w :
  (forall t, viewerText w = Some t -> blank (substring_from t o) = true) ->
  startReading r o w = w \/
  startReading r o w = alert w \/
  startReading r o w = cancel w.
Proof.
  intros H. unfold startReading.
  destruct (file r); [|auto].
  destruct (viewerText w) as [t|] eqn:Et; [|auto].
  destruct (supported w); simpl; [|auto].
  destruct (blank t); [auto|].
  rewrite (H t eq_refl). auto.
Qed.

Lemma callback_frame u e w :
  synth (callback u e w) = synth w /\
  calls (callback u e w) = calls w /\
  timers (callback u e w) = timers w /\
  utteranceRef (callback u e w) = utteranceRef w /\
  viewerText (callback u e w) = viewerText w.
Proof. destruct e as [| | | |[] c]; repeat split. Qed.

Lemma startReading_one_stream r o w :
  one_stream w -> one_stream (startReading r o w).
Proof.
  intros H.
  destruct (startReading_cases r o w) as [->|[->|[->|(t & _ & ->)]]];
    try exact H; [left; reflexivity|].
  right. eexists. split; reflexivity.
Qed.

Lemma step_one_stream i w : one_stream w -> one_stream (step i w).
Proof.
  intros H. destruct i; simpl.
  - unfold loadVoices.
    destruct (or_else _ _); [destruct (selectedVoice first_render)|]; exact H.
  - left. reflexivity.
  - now apply startReading_one_stream.
  - left. reflexivity.
  - unfold handleRateChange. destruct (isPlaying (app w)); [left; reflexivity|exact H].
  - unfold handleVoiceChange. destruct (find _ _); [|exact H].
    destruct (isPlaying (app w)); [left; reflexivity|exact H].
  - unfold pauseReading. destruct (_ && _); exact H.
  - unfold resumeReading. destruct (paused _); exact H.
  - left. reflexivity.
  - left. reflexivity.
  - destruct (nth_error (timers w) k); [|exact H].
    apply startReading_one_stream. exact H.
  - destruct (queue (synth w)) as [|u q] eqn:Eq; [exact H|].
    unfold one_stream.
    destruct (callback_frame u e (set_synth (engine_progress e (synth w)) w))
      as (-> & _ & _ & -> & _).
    destruct H as [H|(u' & H & Hr)]; rewrite Eq in H; [discriminate|].
    injection H as -> ->.
    destruct e; simpl; rewrite ?Eq; simpl; eauto.
  - unfold one_stream.
    destruct (callback_frame u e w) as (-> & _ & _ & -> & _). exact H.
Qed.

Lemma cancels_before_speaking_snoc cs c :
  cancels_before_speaking cs -> (forall u, c <> Speak u) ->
  cancels_before_speaking (cs ++ [c]).
Proof.
  intros H Hc pre u post E.
  destruct post as [|x post _] using rev_ind.
  - apply app_inj_tail in E as [_ E]. now apply Hc in E.
  - change (pre ++ Speak u :: post ++ [x])
      with (pre ++ (Speak u :: post) ++ [x]) in E.
    rewrite app_assoc in E. apply app_inj_tail in E as [E _].
    now apply H in E.
Qed.

Lemma cancels_before_speaking_restart cs u :
  cancels_before_speaking cs ->
  cancels_before_speaking ((cs ++ [Cancel]) ++ [Speak u]).
Proof.
  intros H pre u' post E.
  destruct post as [|x post _] using rev_ind.
  - apply app_inj_tail in E as [E _]. eauto.
  - change (pre ++ Speak u' :: post ++ [x])
      with (pre ++ (Speak u' :: post) ++ [x]) in E.
    rewrite app_assoc in E. apply app_inj_tail in E as [E _].
    revert E. apply cancels_before_speaking_snoc; [exact H | discriminate].
Qed.

Lemma startReading_calls r o w :
  cancels_before_speaking (calls w) ->
  cancels_before_speaking (calls (startReading r o w)).
Proof.
  intros H.
  destruct (startReading_cases r o w) as [->|[->|[->|(t & _ & ->)]]];
    try exact H.
  - apply cancels_before_speaking_snoc; [exact H | discriminate].
  - now apply cancels_before_speaking_restart.
Qed.

Lemma step_calls i w :
  cancels_before_speaking (calls w) ->
  cancels_before_speaking (calls (step i w)).
Proof.
  assert (Hsnoc : forall c, (forall u, c <> Speak u) ->
            cancels_before_speaking (calls w) ->
            cancels_before_speaking (calls w ++ [c]))
    by (intros c Hc H; now apply cancels_before_speaking_snoc).
  intros H. destruct i; simpl.
  - unfold loadVoices.
    destruct (or_else _ _); [destruct (selectedVoice first_render)|]; exact H.
  - apply Hsnoc; [discriminate | exact H].
  - now apply startReading_calls.
  - apply Hsnoc; [discriminate | exact H].
  - unfold handleRateChange. destruct (isPlaying (app w)); [|exact H].
    apply Hsnoc; [discriminate | exact H].
  - unfold handleVoiceChange. destruct (find _ _); [|exact H].
    destruct (isPlaying (app w)); [|exact H].
    apply Hsnoc; [discriminate | exact H].
  - unfold pauseReading. destruct (_ && _); [|exact H].
    apply Hsnoc; [discriminate | exact H].
  - unfold resumeReading. destruct (paused _); [|exact H].
    apply Hsnoc; [discriminate | exact H].
  - apply Hsnoc; [discriminate | exact H].
  - apply Hsnoc; [discriminate | exact H].
  - destruct (nth_error (timers w) k); [|exact H].
    apply startReading_calls. exact H.
  - destruct (queue (synth w)) as [|u q]; [exact H|].
    destruct (callback_frame u e (set_synth (engine_progress e (synth w)) w))
      as (_ & -> & _). exact H.
  - destruct (callback_frame u e w) as (_ & -> & _). exact H.
Qed.

Lemma run_calls trace w :
  cancels_before_speaking (calls w) ->
  cancels_before_speaking (calls (run trace w)).
Proof.
  revert w. induction trace as [|i trace IH]; intros w H; [exact H|].
  simpl. apply IH. now apply step_calls.
Qed.

Lemma run_app trace1 trace2 w :
  run (trace1 ++ trace2) w = run trace2 (run trace1 w).
Proof. unfold run. apply fold_left_app. Qed.

Lemma run_one_stream trace w : one_stream w -> one_stream (run trace w).
Proof.
  revert w. induction trace as [|i trace IH]; intros w H; [exact H|].
  simpl. apply IH. now apply step_one_stream.
Qed.

End AppFacts.

Import App AppFacts.

(** C1. When [startReading(startIndex)] starts a stream, that stream is the
    only one the engine holds, and a word boundary it reports at local
    index [c] sets [currentWordIndex] to [startIndex + c].  On
    "alpha beta gamma": a boundary at 6 after a start at 0 gives 6, and a
    boundary at 0 after a seek to 12 gives 12. *)
Theorem boundary_offset_is_global :
  (forall (r : State) (w : World) (startIndex c : Z),
     starts r startIndex w ->
     exists u,
       queue (synth (startReading r startIndex w)) = [u] /\
       App.startIndex u = startIndex /\
       currentWordIndex
         (app (step (Engine (EvBoundary word c)) (startReading r startIndex w)))
       = (startIndex + c)%Z) /\
  currentWordIndex (app (run reading_beta initial)) = 6%Z /\
  currentWordIndex (app (run seeking_12 initial)) = 12%Z.
Proof.
  split; [|split; reflexivity].
  intros r w o c H.
  destruct (startReading_starts r o w H) as (t & _ & ->).
  exists (utterance_for r o t). repeat split.
Qed.

Lemma boundary_offset_is_global_witness :
  exists u,
    queue (synth (startReading (app (run reading_beta initial)) 12
                    (run reading_beta initial))) = [u] /\
    App.startIndex u = 12%Z /\
    currentWordIndex
      (app (step (Engine (EvBoundary word 0))
              (startReading (app (run reading_beta initial)) 12
                 (run reading_beta initial)))) = (12 + 0)%Z.
Proof.
  apply (proj1 boundary_offset_is_global).
  split; [discriminate|]. split; [reflexivity|].
  exists alpha_beta_gamma. repeat split.
Defined.

(** After the seek to 12 the first utterance is canceled and the second
    one speaks; a late boundary of the first at local index 6 moves
    [currentWordIndex] from 12 back to 6. *)
Lemma stale_boundary_overwrites_offset : ~ stale_boundaries_are_discarded.
Proof.
  intros H.
  specialize (H seeking_12 (mkUtterance alpha_beta_gamma None 1 1 0) 6%Z).
  cbv zeta in H.
  assert (Hcalled : In (Speak (mkUtterance alpha_beta_gamma None 1 1 0))
                       (calls (run seeking_12 initial))).
  { vm_compute. auto. }
  assert (Hgone : ~ In (mkUtterance alpha_beta_gamma None 1 1 0)
                       (queue (synth (run seeking_12 initial)))).
  { vm_compute. intros [E|[]]. discriminate. }
  assert (Hnewer : queue (synth (run seeking_12 initial)) <> []).
  { vm_compute. discriminate. }
  specialize (H Hcalled Hgone Hnewer).
  vm_compute in H. discriminate.
Qed.

(** C2, as the code has it.  After any sequence of inputs (user commands,
    timers, engine reports, even late callbacks) every [speak] the engine
    was given came directly after a [cancel]; the engine holds at most one
    utterance, and it is the one [startReading] built last; so what the
    engine reports on the utterance it holds is never from a canceled
    stream, and a word boundary it reports sets [currentWordIndex] from
    the start offset of the newest stream. *)
Theorem at_most_one_stream (trace : list Input) :
  let w := run trace initial in
  cancels_before_speaking (calls w) /\
  length (queue (synth w)) <= 1 /\
  (forall u, In u (queue (synth w)) -> utteranceRef w = Some u) /\
  (forall u c,
     utteranceRef w = Some u -> queue (synth w) <> [] ->
     currentWordIndex (app (step (Engine (EvBoundary word c)) w)) =
     (startIndex u + c)%Z).
Proof.
  cbv zeta. split.
  { apply run_calls. intros [|c pre] u post E; discriminate. }
  assert (H : one_stream (run trace initial))
    by (apply run_one_stream; left; reflexivity).
  destruct H as [H|(u & H & Hr)]; rewrite H; simpl.
  - repeat split; [lia | tauto |]. intros u c _ Hq. now destruct Hq.
  - repeat split; [lia | intros ? [<-|[]]; exact Hr |].
    intros u' c Hu' _. rewrite H. simpl. congruence.
Qed.

Lemma at_most_one_stream_witness :
  currentWordIndex
    (app (step (Engine (EvBoundary word 3)) (run seeking_12 initial))) =
  (startIndex (mkUtterance (js "amma") None 1 1 12) + 3)%Z.
Proof.
  apply (proj2 (proj2 (proj2 (at_most_one_stream seeking_12)))).
  - reflexivity.
  - discriminate.
Defined.

(** C4, evaluated.  The restarted stream begins at offset 6, but it speaks
    with the rate and the voice of the render in which the change was
    made: the timer calls the [startReading] of that render, whose [rate]
    and [selectedVoice] are the values from before the change. *)
Theorem restart_after_change_keeps_old_parameter :
  (rate (app (run rate_changed_at_beta initial)) = (3 # 2)%Q /\
   queue (synth (run rate_changed_at_beta initial)) =
     [mkUtterance (js "beta gamma") None 1 1 6]) /\
  (selectedVoice (app (run voice_changed_at_beta initial)) = Some french /\
   queue (synth (run voice_changed_at_beta initial)) =
     [mkUtterance (js "beta gamma") (Some english) 1 1 6]).
Proof. repeat split. Qed.

(** What the restart after a rate change is made of, in general. *)
Lemma restart_after_rate_change (w : World) (q : Q) :
  isPlaying (app w) = true ->
  starts (app w) (Z.max 0 (currentWordIndex (app w))) w ->
  exists t,
    viewerText w = Some t /\
    rate (app (handleRateChange (app w) q w)) = q /\
    queue (synth (step (TimerFires (length (timers w)))
                    (handleRateChange (app w) q w))) =
    [mkUtterance (substring_from t (Z.max 0 (currentWordIndex (app w))))
       (selectedVoice (app w)) (rate (app w)) 1
       (Z.max 0 (currentWordIndex (app w)))].
Proof.
  intros Hp Hs. unfold handleRateChange. rewrite Hp.
  replace (if (currentWordIndex (app w) >? 0)%Z
           then currentWordIndex (app w) else 0%Z)
    with (Z.max 0 (currentWordIndex (app w)))
    by (destruct (Z.gtb_spec (currentWordIndex (app w)) 0); lia).
  set (o := Z.max 0 (currentWordIndex (app w))) in *.
  destruct Hs as (Hf & Hsup & t & Ht & Hb & Hbs).
  exists t. split; [exact Ht|]. split; [reflexivity|].
  set (w1 := setTimeout (app w) o 50 (cancel (setRate q w))).
  assert (Hts : timers w1 = timers w ++ [mkTimer 50 (app w) o]) by reflexivity.
  cbn [step]. rewrite Hts.
  rewrite nth_error_app2 by lia. rewrite Nat.sub_diag. cbn [nth_error].
  cbn [closure argument].
  unfold startReading.
  destruct (file (app w)); [|congruence].
  change (viewerText (set_timers _ w1)) with (viewerText w).
  change (supported (set_timers _ w1)) with (supported w).
  rewrite Ht, Hsup, Hb, Hbs. reflexivity.
Qed.

(** C6. When the slice of the rendered text from [o] is empty or white
    space only, as it is for every [o] at or past the end of the text,
    [startReading(o)] builds no utterance: the state of the session, the
    timers and [utteranceRef] stay as they are; the engine is either not
    called at all or only asked to cancel.  An idle session stays idle,
    and an idle engine stays as it was. *)
Theorem start_on_blank_slice_is_noop (r : State) (w : World) (o : Z) :
  (forall t, viewerText w = Some t ->
     blank (substring_from t o) = true \/ (Z.of_nat (length t) <= o)%Z) ->
  app (startReading r o w) = app w /\
  (status (app w) = Idle -> status (app (startReading r o w)) = Idle) /\
  timers (startReading r o w) = timers w /\
  utteranceRef (startReading r o w) = utteranceRef w /\
  viewerText (startReading r o w) = viewerText w /\
  (calls (startReading r o w) = calls w /\
   synth (startReading r o w) = synth w
   \/
   calls (startReading r o w) = calls w ++ [Cancel] /\
   synth (startReading r o w) = mkSynth [] false (paused (synth w))) /\
  (queue (synth w) = [] -> speaking (synth w) = false ->
   synth (startReading r o w) = synth w).
Proof.
  intros H.
  assert (Hblank : forall t, viewerText w = Some t ->
                             blank (substring_from t o) = true).
  { intros t Ht. destruct (H t Ht) as [Hb|Hlen]; [exact Hb|].
    apply blank_spec. unfold substring_from, clamp.
    rewrite Nat.min_r by lia. now rewrite skipn_all. }
  destruct (startReading_blank r o w Hblank) as [-> | [-> | ->]];
    repeat split; auto.
  intros Hq Hs. simpl. destruct (synth w) as [qu sp pa]. simpl in *.
  now subst.
Qed.

Lemma start_on_blank_slice_is_noop_witness :
  app (startReading (app (run reading_beta initial)) 16 (run reading_beta initial))
  = app (run reading_beta initial) /\
  calls (startReading (app (run reading_beta initial)) 16 (run reading_beta initial))
  = calls (run reading_beta initial) ++ [Cancel].
Proof.
  destruct (start_on_blank_slice_is_noop (app (run reading_beta initial))
              (run reading_beta initial) 16) as (Ha & _ & _ & _ & _ & Hc & _).
  - intros t [= <-]. right. vm_compute. discriminate.
  - split; [exact Ha|]. destruct Hc as [[Hc _]|[Hc _]]; [|exact Hc].
    vm_compute in Hc. discriminate.
Defined.

(** C8. The tokenizer on its boundary inputs, and [startReading] on an
    empty document.  The empty input has no token; a non-empty input
    without white space is one word token; leading and trailing white space
    come out as the first and the last token, both separators.  The
    document of [startReading] is what the viewer has rendered: when that
    is empty or blank, the session, the engine, the timers and
    [utteranceRef] stay as they are, and with an engine in the window
    nothing changes at all. *)
Theorem boundary_inputs :
  tokenizedContent [] = [] /\
  (forall s, s <> [] -> forallb is_nonspace s = true ->
     tokenizedContent s = [mkToken s 0 true]) /\
  (forall s, take_while is_space s <> [] ->
     exists rest,
       tokenizedContent s = mkToken (take_while is_space s) 0 false :: rest) /\
  (forall s, rev (take_while is_space (rev s)) <> [] ->
     exists front,
       tokenizedContent s =
       front ++ [mkToken (rev (take_while is_space (rev s)))
                         (length s - length (take_while is_space (rev s)))
                         false]) /\
  (forall r w o t,
     viewerText w = Some t -> blank t = true ->
     app (startReading r o w) = app w /\
     synth (startReading r o w) = synth w /\
     calls (startReading r o w) = calls w /\
     timers (startReading r o w) = timers w /\
     utteranceRef (startReading r o w) = utteranceRef w /\
     (supported w = true -> startReading r o w = w)).
Proof.
  split; [exact tokenize_empty|].
  split; [exact tokenize_single_word|].
  split; [exact tokenize_leading_space|].
  split; [exact tokenize_trailing_space|].
  intros r w o t Ht Hb. unfold startReading.
  destruct (file r); [|repeat split]. rewrite Ht, Hb.
  destruct (supported w); simpl; repeat split. discriminate.
Qed.

Lemma boundary_inputs_witness :
  tokenizedContent (js "word") = [mkToken (js "word") 0 true] /\
  (exists rest,
     tokenizedContent (js "  a b ") = mkToken (js "  ") 0 false :: rest) /\
  (exists front,
     tokenizedContent (js "  a b ") = front ++ [mkToken (js " ") 5 false]) /\
  startReading (app empty_document) 0 empty_document = empty_document.
Proof.
  destruct boundary_inputs as (_ & Hword & Hlead & Htrail & Hstart).
  split; [apply Hword; [discriminate | reflexivity]|].
  split; [apply (Hlead (js "  a b ")); discriminate|].
  split; [apply (Htrail (js "  a b ")); discriminate|].
  apply (Hstart (app empty_document) empty_document 0%Z []); reflexivity.
Defined.

(** C9. A rate or voice change made while playing, before any position is
    known or at position 0, schedules the restart with offset 0, and the
    stream that restart creates starts at 0.  Whatever the position, the
    offset handed to the restart is [max 0 currentWordIndex]. *)
Theorem restart_offset_is_clamped (w : World) :
  isPlaying (app w) = true ->
  (currentWordIndex (app w) <= 0)%Z ->
  (forall q,
     timers (handleRateChange (app w) q w) =
       timers w ++ [mkTimer 50 (app w) 0] /\
     forall u,
       In u (queue (synth (step (TimerFires (length (timers w)))
                             (handleRateChange (app w) q w)))) ->
       startIndex u = 0%Z) /\
  (forall n v,
     find (fun v => jsstring_eqb (name v) n) (voices (app w)) = Some v ->
     timers (handleVoiceChange (app w) n w) =
       timers w ++ [mkTimer 50 (app w) 0] /\
     forall u,
       In u (queue (synth (step (TimerFires (length (timers w)))
                             (handleVoiceChange (app w) n w)))) ->
       startIndex u = 0%Z) /\
  (forall w' q t,
     isPlaying (app w') = true ->
     In t (timers (handleRateChange (app w') q w')) ->
     In t (timers w') \/ argument t = Z.max 0 (currentWordIndex (app w'))) /\
  (forall w' n t,
     isPlaying (app w') = true ->
     In t (timers (handleVoiceChange (app w') n w')) ->
     In t (timers w') \/ argument t = Z.max 0 (currentWordIndex (app w'))).
Proof.
  intros Hp Hle.
  assert (Hidx : (if (currentWordIndex (app w) >? 0)%Z
                  then currentWordIndex (app w) else 0%Z) = 0%Z).
  { destruct (Z.gtb_spec (currentWordIndex (app w)) 0); [lia|reflexivity]. }
  assert (Hmax : forall z, (if (z >? 0)%Z then z else 0%Z) = Z.max 0 z).
  { intros z. destruct (Z.gtb_spec z 0); lia. }
  assert (Hfire : forall w1,
            queue (synth w1) = [] ->
            timers w1 = timers w ++ [mkTimer 50 (app w) 0] ->
            forall u, In u (queue (synth (step (TimerFires (length (timers w))) w1))) ->
                      startIndex u = 0%Z).
  { intros w1 Hq Ht u. cbn [step]. rewrite Ht.
    rewrite nth_error_app2 by lia. rewrite Nat.sub_diag. cbn [nth_error].
    cbn [closure argument].
    set (w2 := set_timers _ w1).
    destruct (startReading_cases (app w) 0 w2) as [->|[->|[->|(t & _ & ->)]]];
      simpl; try (rewrite Hq); simpl; try tauto.
    intros [<-|[]]. reflexivity. }
  split; [|split; [|split]].
  - intros q. unfold handleRateChange. rewrite Hp, Hidx.
    split; [reflexivity|]. apply Hfire; reflexivity.
  - intros n v Hv. unfold handleVoiceChange. rewrite Hv, Hp, Hidx.
    split; [reflexivity|]. apply Hfire; reflexivity.
  - intros w' q t Hp'. unfold handleRateChange. rewrite Hp', Hmax. simpl.
    rewrite in_app_iff. intros [H|[<-|[]]]; auto.
  - intros w' n t Hp'. unfold handleVoiceChange.
    destruct (find _ _); [|auto]. rewrite Hp', Hmax. simpl.
    rewrite in_app_iff. intros [H|[<-|[]]]; auto.
Qed.

Lemma restart_offset_is_clamped_witness :
  currentWordIndex (app (run just_started initial)) = (-1)%Z /\
  timers (handleRateChange (app (run just_started initial)) (3 # 2)
            (run just_started initial)) =
    [mkTimer 50 (app (run just_started initial)) 0] /\
  queue (synth (run (just_started ++ [ChangeRate (3 # 2); TimerFires 0]) initial)) =
    [mkUtterance alpha_beta_gamma None 1 1 0].
Proof.
  split; [reflexivity|].
  assert (Hle : (currentWordIndex (app (run just_started initial)) <= 0)%Z)
    by (vm_compute; discriminate).
  destruct (restart_offset_is_clamped (run just_started initial) eq_refl Hle)
    as (Hrate & _).
  destruct (Hrate (3 # 2)%Q) as (Ht & _).
  split; [exact Ht | reflexivity].
Defined.

(** C10. [pauseReading] and [resumeReading] leave the state of the
    session, the queued utterance (with its start offset, rate and voice),
    [utteranceRef], the timers and the rendered text as they are; the only
    call they make on the engine is [pause], made exactly when the engine
    is speaking and not paused, respectively [resume], made exactly when
    the engine is paused. *)
Theorem pause_resume_frame (w : World) :
  (app (pauseReading w) = app w /\
   queue (synth (pauseReading w)) = queue (synth w) /\
   utteranceRef (pauseReading w) = utteranceRef w /\
   timers (pauseReading w) = timers w /\
   viewerText (pauseReading w) = viewerText w /\
   calls (pauseReading w) =
     calls w ++ (if speaking (synth w) && negb (paused (synth w))
                 then [Pause] else [])) /\
  (app (resumeReading w) = app w /\
   queue (synth (resumeReading w)) = queue (synth w) /\
   utteranceRef (resumeReading w) = utteranceRef w /\
   timers (resumeReading w) = timers w /\
   viewerText (resumeReading w) = viewerText w /\
   calls (resumeReading w) =
     calls w ++ (if paused (synth w) then [Resume] else [])).
Proof.
  unfold pauseReading, resumeReading.
  destruct (speaking (synth w)), (paused (synth w)); simpl;
    rewrite ?app_nil_r; repeat split.
Qed.

(** * Further properties *)

(** ** Tokens are maximal runs; the reader view *)

Module ReaderFacts.
Import Tokenizer TokenizerFacts Reader.

Lemma exec_word_stops content li start w :
  exec_word content li = Some (start, w) ->
  skipn (start + length w) content = [] \/
  exists c r, skipn (start + length w) content = c :: r /\ is_space c = true.
Proof.
  intros H.
  pose proof (exec_word_some _ _ _ _ H) as (_ & _ & _ & Hsplit & _ & _).
  unfold exec_word in H.
  set (rest := skipn li content) in *.
  destruct (take_while is_nonspace (drop_while is_space rest)) as [|c0 w'] eqn:E;
    [discriminate|].
  injection H as _ Hw.
  pose proof (take_drop_while is_space rest) as H1.
  pose proof (take_drop_while is_nonspace (drop_while is_space rest)) as H2.
  rewrite E, Hw in H2.
  assert (Hrest : skipn (start + length w) content =
                  drop_while is_nonspace (drop_while is_space rest)).
  { assert (Hr : rest = take_while is_space rest ++ w ++
                       drop_while is_nonspace (drop_while is_space rest))
      by (now rewrite H2, H1).
    assert (Heq : take_while is_space rest ++ w ++ skipn (start + length w) content =
                  take_while is_space rest ++ w ++
                  drop_while is_nonspace (drop_while is_space rest))
      by (rewrite <- Hsplit; exact Hr).
    apply app_inv_head in Heq. now apply app_inv_head in Heq. }
  rewrite Hrest.
  destruct (drop_while is_nonspace (drop_while is_space rest)) as [|c r] eqn:Ed;
    [now left|right].
  exists c, r. split; [reflexivity|].
  apply drop_while_head in Ed. unfold is_nonspace in Ed.
  now destruct (is_space c).
Qed.

Lemma exec_word_here content li w :
  exec_word content li = Some (li, w) ->
  exists c r, skipn li content = c :: r /\ is_space c = false.
Proof.
  intros H.
  pose proof (exec_word_some _ _ _ _ H) as (_ & _ & Hpre & Hsplit & Hne & Hns).
  rewrite Nat.sub_diag in Hpre. simpl in Hpre. rewrite <- Hpre in Hsplit.
  destruct w as [|c w']; [congruence|].
  exists c, (w' ++ skipn (li + length (c :: w')) content).
  split; [exact Hsplit|].
  simpl in Hns. apply andb_prop in Hns as [Hc _].
  unfold is_nonspace in Hc. now destruct (is_space c).
Qed.

Lemma alternating_cons t ts :
  alternating (t :: ts) <->
  (forall t2 rest, ts = t2 :: rest -> isWord t <> isWord t2) /\ alternating ts.
Proof.
  simpl. destruct ts as [|t2 rest].
  - split; [intros [_ H]; split; [discriminate | exact H] | tauto].
  - split.
    + intros [H1 H2]. split; [|exact H2]. now intros ? ? [= <- <-].
    + intros [H1 H2]. split; [|exact H2]. now apply (H1 t2 rest).
Qed.

Lemma alternating_snoc ts x :
  alternating ts ->
  (forall pre t, ts = pre ++ [t] -> isWord t <> isWord x) ->
  alternating (ts ++ [x]).
Proof.
  induction ts as [|t ts IH]; intros Ha Hl; [simpl; auto|].
  apply alternating_cons in Ha as [Hh Ht].
  change ((t :: ts) ++ [x]) with (t :: (ts ++ [x])).
  apply alternating_cons. split.
  - intros t2 rest E. destruct ts as [|t' ts'].
    + injection E as <- _. apply (Hl [] t). reflexivity.
    + injection E as <- _. now apply (Hh t' ts').
  - apply IH; [exact Ht|]. intros pre t0 E. apply (Hl (t :: pre) t0).
    now rewrite E.
Qed.

(** What the loop appends alternates, ends in a word, and begins with a
    word only where the text has a non-space code unit. *)
Lemma tokenize_loop_alternates content li els :
  li <= length content ->
  exists more,
    snd (tokenize_loop content li els) = els ++ more /\
    alternating more /\
    (forall t rest, more = t :: rest -> isWord t = true ->
       exists c r, skipn li content = c :: r /\ is_space c = false) /\
    (forall pre t, more = pre ++ [t] -> isWord t = true).
Proof.
  apply (tokenize_loop_elim
    (fun content li els res =>
       li <= length content ->
       exists more,
         snd res = els ++ more /\
         alternating more /\
         (forall t rest, more = t :: rest -> isWord t = true ->
            exists c r, skipn li content = c :: r /\ is_space c = false) /\
         (forall pre t, more = pre ++ [t] -> isWord t = true)));
    clear content li els.
  - intros content li start txt e els IH _ Hli. cbv zeta in IH.
    pose proof (exec_word_some _ _ _ _ e) as (Hle & Hend & _).
    pose proof (exec_word_stops _ _ _ _ e) as Hstop.
    destruct IH as (more & Hsnd & Halt & Hfirst & Hlast); [lia|].
    remember (mkToken (substring content (Z.of_nat li) (Z.of_nat start)) li false)
      as sep eqn:Esep.
    remember (mkToken txt start true) as wd eqn:Ewd.
    assert (Hwd : alternating (wd :: more)).
    { apply alternating_cons. split; [|exact Halt].
      intros t2 rest E Hsame. subst wd. simpl in Hsame.
      destruct (Hfirst t2 rest E (eq_sym Hsame)) as (c & r & Hc & Hsp).
      destruct Hstop as [Hnil | (c' & r' & Hc' & Hsp')]; congruence. }
    assert (Hwdlast : forall pre t, wd :: more = pre ++ [t] -> isWord t = true).
    { intros pre t E. destruct pre as [|p0 pre].
      - simpl in E. injection E as <- _. now subst wd.
      - simpl in E. injection E as _ E. now apply (Hlast pre t). }
    cbv zeta. exists ((if li <? start then [sep] else []) ++ wd :: more).
    split; [|split; [|split]].
    + rewrite Hsnd. destruct (li <? start); simpl; now rewrite <- !app_assoc.
    + destruct (li <? start); simpl app; [|exact Hwd].
      apply alternating_cons. split; [|exact Hwd].
      intros t2 rest [= <- _]. subst sep wd. simpl. discriminate.
    + destruct (li <? start) eqn:Elt; simpl app.
      * intros t rest [= <- _] Hw. subst sep. discriminate.
      * intros t rest [= <- _] _. apply Nat.ltb_ge in Elt.
        assert (start = li) by lia. subst start.
        now apply exec_word_here with (w := txt).
    + destruct (li <? start); simpl app; [|exact Hwdlast].
      intros pre t E. destruct pre as [|p0 pre].
      * simpl in E. discriminate.
      * simpl in E. injection E as _ E. now apply (Hwdlast pre t).
  - intros content li e els _ Hli. simpl. exists [].
    rewrite app_nil_r. repeat split.
    + intros t rest E. discriminate.
    + intros [|p0 pre] t E; discriminate.
Qed.

Lemma well_kinded_total content : Forall well_kinded (tokenizedContent content).
Proof.
  destruct (tokenizedContent_spec content)
    as (stop & more & Hstop & -> & _ & _ & Hwk & Hsp & _).
  apply Forall_app. split; [exact Hwk|].
  destruct (stop <? length content) eqn:E; constructor; [|constructor].
  apply Nat.ltb_lt in E. split; simpl; [|exact Hsp].
  intros Hnil. apply (f_equal (@length _)) in Hnil.
  rewrite length_skipn in Hnil. simpl in Hnil. lia.
Qed.

Lemma alternating_total content : alternating (tokenizedContent content).
Proof.
  destruct (tokenize_loop_alternates content 0 [] (Nat.le_0_l _))
    as (more & Hsnd & Halt & _ & Hlast).
  unfold tokenizedContent.
  destruct (tokenize_loop content 0 []) as [stop els]. simpl in Hsnd. subst els.
  destruct (stop <? length content); [|exact Halt].
  apply alternating_snoc; [exact Halt|].
  intros pre t E. rewrite (Hlast pre t E). simpl. discriminate.
Qed.

End ReaderFacts.

Import Tokenizer TokenizerFacts Reader ReaderFacts.

(** X1. The tokens are the maximal runs of the input: no token is empty, a
    word token holds no white space and a separator token nothing else,
    and a word is always followed by a separator and a separator by a
    word. *)
Theorem tokens_are_maximal_runs (content : jsstring) :
  Forall well_kinded (tokenizedContent content) /\
  alternating (tokenizedContent content).
Proof. split; [apply well_kinded_total | apply alternating_total]. Qed.

Module ActiveFacts.
Import Tokenizer TokenizerFacts Reader.

Lemma forallb_nth_error {A} (p : A -> bool) l k c :
  forallb p l = true -> nth_error l k = Some c -> p c = true.
Proof.
  intros H Hk. apply nth_error_In in Hk.
  rewrite forallb_forall in H. now apply H.
Qed.

Lemma isActive_spec i start txt :
  isActive i start txt = true <->
  (Z.of_nat start <= i < Z.of_nat start + Z.of_nat (length txt))%Z.
Proof.
  unfold isActive. rewrite andb_true_iff, Z.geb_le, Z.ltb_lt. tauto.
Qed.

Lemma filter_skip {A} (p : A -> bool) x l :
  p x = false -> filter p (x :: l) = filter p l.
Proof. simpl. now intros ->. Qed.

Lemma filter_keep {A} (p : A -> bool) x l :
  p x = true -> filter p (x :: l) = x :: filter p l.
Proof. simpl. now intros ->. Qed.

Lemma active_count toks :
  forall base i,
    placed base toks -> Forall well_kinded toks ->
    length (filter active (map (render_token i) toks)) =
    highlighted (char_at (texts toks) (i - Z.of_nat base)).
Proof.
  induction toks as [|t ts IH]; intros base i Hpl Hwk.
  - simpl. unfold char_at. destruct (i - Z.of_nat base <? 0)%Z; [reflexivity|].
    now destruct (Z.to_nat (i - Z.of_nat base)).
  - destruct Hpl as [Hidx Hpl]. inversion Hwk as [|? ? [Hne Hkind] Hwk']; subst.
    specialize (IH _ i Hpl Hwk').
    change (texts (t :: ts)) with (text t ++ texts ts).
    assert (Hlen : 0 < length (text t)) by (destruct (text t); simpl; [congruence|lia]).
    cbn [map]. unfold char_at in *.
    rewrite Nat2Z.inj_add in IH.
    destruct (i - Z.of_nat (index t) <? 0)%Z eqn:Eneg.
    + apply Z.ltb_lt in Eneg.
      assert (Hin : active (render_token i t) = false).
      { unfold render_token. destruct (isWord t); simpl; [|reflexivity].
        apply not_true_is_false. rewrite isActive_spec. lia. }
      rewrite (filter_skip _ _ _ Hin), IH.
      destruct (i - (Z.of_nat (index t) + Z.of_nat (length (text t))) <? 0)%Z eqn:E2;
        [reflexivity|]. apply Z.ltb_ge in E2. lia.
    + apply Z.ltb_ge in Eneg.
      destruct (Z_lt_le_dec (i - Z.of_nat (index t)) (Z.of_nat (length (text t))))
        as [Hin|Hout].
      * (* the index lies in this token *)
        assert (Htail : (i - (Z.of_nat (index t) + Z.of_nat (length (text t))) <? 0)%Z
                        = true) by (apply Z.ltb_lt; lia).
        rewrite Htail in IH. simpl in IH.
        rewrite nth_error_app1 by lia.
        destruct (nth_error (text t) (Z.to_nat (i - Z.of_nat (index t)))) as [c|] eqn:Ec;
          [|apply nth_error_None in Ec; lia].
        pose proof (forallb_nth_error _ _ _ _ Hkind Ec) as Hc.
        destruct (isWord t) eqn:Ew.
        -- assert (Ha : active (render_token i t) = true).
           { unfold render_token. rewrite Ew. simpl.
             apply isActive_spec. lia. }
           rewrite (filter_keep _ _ _ Ha). simpl length. rewrite IH.
           unfold is_nonspace in Hc. simpl.
           destruct (is_space c); [discriminate | reflexivity].
        -- assert (Ha : active (render_token i t) = false)
             by (unfold render_token; now rewrite Ew).
           rewrite (filter_skip _ _ _ Ha), IH. simpl. now rewrite Hc.
      * (* the index lies further on *)
        assert (Hin : active (render_token i t) = false).
        { unfold render_token. destruct (isWord t); simpl; [|reflexivity].
          apply not_true_is_false. rewrite isActive_spec. lia. }
        rewrite (filter_skip _ _ _ Hin), IH.
        rewrite nth_error_app2 by lia.
        replace (Z.to_nat (i - Z.of_nat (index t)) - length (text t))
          with (Z.to_nat (i - (Z.of_nat (index t) + Z.of_nat (length (text t)))))
          by lia.
        destruct (i - (Z.of_nat (index t) + Z.of_nat (length (text t))) <? 0)%Z eqn:E2;
          [apply Z.ltb_lt in E2; lia | reflexivity].
Qed.

Lemma render_active_count content i :
  length (filter active (render content i)) = highlighted (char_at content i).
Proof.
  unfold render.
  rewrite (active_count _ 0 i (placed_total content) (well_kinded_total content)).
  now rewrite texts_total, Z.sub_0_r.
Qed.

Lemma char_at_middle (a b c : jsstring) x :
  char_at (a ++ (x :: b) ++ c) (Z.of_nat (length a)) = Some x.
Proof.
  unfold char_at.
  destruct (Z.of_nat (length a) <? 0)%Z eqn:E; [apply Z.ltb_lt in E; lia|].
  rewrite Nat2Z.id, nth_error_app2, Nat.sub_diag by lia. reflexivity.
Qed.

End ActiveFacts.

Import ActiveFacts.


(** X3. A word span hands its own start index to [onWordClick], and when
    [currentWordIndex] is that index, the clicked word is the highlighted
    one and the only one. *)
Theorem clicked_word_is_highlighted (content : jsstring) pre t post :
  tokenizedContent content = pre ++ t :: post ->
  isWord t = true ->
  nth_error (render content (Z.of_nat (index t))) (length pre) =
    Some (mkSpan (text t) true (Some (Z.of_nat (index t)))) /\
  filter active (render content (Z.of_nat (index t))) =
    [mkSpan (text t) true (Some (Z.of_nat (index t)))].
Proof.
  intros E Hw.
  pose proof (well_kinded_total content) as Hwk. rewrite E in Hwk.
  apply Forall_app in Hwk as [_ Hwk]. inversion Hwk as [|? ? [Hne Hkind] _]; subst.
  rewrite Hw in Hkind.
  assert (Ha : isActive (Z.of_nat (index t)) (index t) (text t) = true).
  { apply isActive_spec. destruct (text t); simpl length; [congruence|lia]. }
  assert (Hspan : render_token (Z.of_nat (index t)) t =
                  mkSpan (text t) true (Some (Z.of_nat (index t)))).
  { unfold render_token. now rewrite Hw, Ha. }
  pose proof (render_active_count content (Z.of_nat (index t))) as Hcount.
  pose proof (placed_total content) as Hpl. rewrite E in Hpl.
  apply placed_middle in Hpl. simpl in Hpl.
  pose proof (texts_total content) as Htx. rewrite E, texts_app in Htx.
  change (texts (t :: post)) with (text t ++ texts post) in Htx.
  destruct (text t) as [|x tx] eqn:Et; [congruence|].
  rewrite <- Htx, Hpl in Hcount at 2.
  rewrite (char_at_middle (texts pre) tx (texts post) x) in Hcount.
  simpl in Hkind. apply andb_prop in Hkind as [Hx _].
  assert (Hsp : is_space x = false)
    by (unfold is_nonspace in Hx; now destruct (is_space x)).
  unfold highlighted in Hcount. rewrite Hsp in Hcount.
  unfold render in *. rewrite E, map_app in *. cbn [map] in *.
  rewrite Hspan in *.
  split.
  - rewrite nth_error_app2; rewrite length_map; [|lia].
    now rewrite Nat.sub_diag.
  - rewrite filter_app in *. cbn [filter active] in *.
    rewrite length_app in Hcount. cbn [length] in Hcount.
    destruct (filter active (map (render_token (Z.of_nat (index t))) pre));
      [|simpl in Hcount; lia].
    destruct (filter active (map (render_token (Z.of_nat (index t))) post));
      [|simpl in Hcount; lia].
    reflexivity.
Qed.

Lemma clicked_word_is_highlighted_witness :
  filter active (render (js " ab  c ") 5) = [mkSpan (js "c") true (Some 5%Z)].
Proof.
  apply (clicked_word_is_highlighted (js " ab  c ")
           [mkToken (js " ") 0 false; mkToken (js "ab") 1 true;
            mkToken (js "  ") 3 false]
           (mkToken (js "c") 5 true) [mkToken (js " ") 6 false]);
    reflexivity.
Defined.

(** ** Click to seek *)

Module ClickFacts.
Import Dom DomFacts ClickToSeek.

Lemma path_eqb_true p q : path_eqb p q = true <-> p = q.
Proof.
  unfold path_eqb. destruct (list_eq_dec Nat.eq_dec p q); split;
    congruence.
Qed.

Lemma total_cons p d nodes :
  total ((p, d) :: nodes) = (Z.of_nat (length d) + total nodes)%Z.
Proof. unfold total. simpl. rewrite length_app. lia. Qed.

Lemma click_walk_some nodes p off k o :
  click_walk nodes p off k = Some o ->
  exists pre d post,
    nodes = pre ++ (p, d) :: post /\
    ~ In p (map fst pre) /\
    o = (off + total pre + Z.of_nat k)%Z.
Proof.
  revert off. induction nodes as [|[q e] nodes IH]; intros off; simpl;
    [discriminate|].
  destruct (path_eqb q p) eqn:E.
  - apply path_eqb_true in E. subst q. intros [= <-].
    exists [], e, nodes. unfold total. simpl. repeat split; [tauto | lia].
  - intros H. destruct (IH _ H) as (pre & d & post & -> & Hnot & ->).
    exists ((q, e) :: pre), d, post. rewrite total_cons.
    repeat split; [|lia].
    simpl. intros [->|Hin]; [|tauto].
    assert (path_eqb p p = true) by now apply path_eqb_true. congruence.
Qed.

Lemma click_walk_finds nodes p d off k :
  In (p, d) nodes -> exists o, click_walk nodes p off k = Some o.
Proof.
  revert off. induction nodes as [|[q e] nodes IH]; intros off; simpl;
    [tauto|].
  destruct (path_eqb q p) eqn:E; [eauto|].
  intros [[= -> ->]|Hin]; [|now apply IH].
  assert (path_eqb p p = true) by now apply path_eqb_true. congruence.
Qed.

Lemma find_node_at pre p d post cc i :
  (cc + total pre <= i < cc + total pre + Z.of_nat (length d))%Z ->
  find_node (pre ++ (p, d) :: post) cc i = Some (p, d, (cc + total pre)%Z).
Proof.
  revert cc. induction pre as [|[q e] pre IH]; intros cc H.
  - unfold total in *. simpl in *. rewrite Z.add_0_r in *.
    destruct (cc + Z.of_nat (length d) >? i)%Z eqn:E; [reflexivity|].
    rewrite Z.gtb_ltb in E. apply Z.ltb_ge in E. lia.
  - rewrite total_cons in *. simpl.
    assert (Hpos : (0 <= total pre)%Z) by (unfold total; lia).
    destruct (cc + Z.of_nat (length e) >? i)%Z eqn:E.
    + apply Z.gtb_lt in E. lia.
    + rewrite IH by lia. do 2 f_equal. lia.
Qed.

Lemma in_flat_mapi_intro {A B} (f : nat -> A -> list B) i0 l k c x :
  nth_error l k = Some c -> In x (f (i0 + k) c) -> In x (flat_mapi f i0 l).
Proof.
  revert i0 k. induction l as [|a l IH]; intros i0 [|k]; simpl;
    try discriminate.
  - intros [= ->]. rewrite Nat.add_0_r, in_app_iff. auto.
  - intros Hk Hin. rewrite in_app_iff. right.
    apply (IH (S i0) k); [exact Hk|]. now rewrite Nat.add_succ_l, <- Nat.add_succ_r.
Qed.

Lemma text_nodes_in q :
  forall n here d,
    get q n = Some (Text d) -> In (here ++ q, d) (text_nodes here n).
Proof.
  induction q as [|i q IH]; intros n here d; simpl.
  - intros [= ->]. rewrite app_nil_r. simpl. auto.
  - destruct n as [d0|tg cl cs]; [discriminate|].
    destruct (nth_error cs i) as [c|] eqn:E; [|discriminate].
    intros H. simpl.
    apply (in_flat_mapi_intro _ 0 cs i c); [exact E|]. simpl.
    replace (here ++ i :: q) with ((here ++ [i]) ++ q)
      by (now rewrite <- app_assoc).
    now apply IH.
Qed.

Lemma createTreeWalker_in root p d :
  get p root = Some (Text d) -> p <> [] -> In (p, d) (createTreeWalker root).
Proof.
  intros Hg Hne. destruct root as [d0|tg cl cs].
  - destruct p; [congruence | discriminate].
  - apply (text_nodes_in p (Element tg cl cs) []). exact Hg.
Qed.

Lemma createTreeWalker_text root :
  root <> Text (textContent root) ->
  concat (map snd (createTreeWalker root)) = textContent root.
Proof.
  destruct root as [d|tg cl cs]; [simpl; congruence|].
  intros _. apply (text_nodes_text (Element tg cl cs) []).
Qed.

(** A click at offset [k] of the text node at [p]: the offset computed,
    and where it lies in the walk and in the text of the container. *)
Lemma click_in_text_node v root p d k :
  container v = Some root ->
  get p root = Some (Text d) -> p <> [] ->
  exists pre post,
    createTreeWalker root = pre ++ (p, d) :: post /\
    handleContainerClick v (Some (mkSelectionRange (Inside p) k)) =
      Some (total pre + Z.of_nat k)%Z /\
    textContent root =
      concat (map snd pre) ++ d ++ concat (map snd post).
Proof.
  intros Hc Hg Hne. unfold handleContainerClick. rewrite Hc. simpl. rewrite Hg.
  pose proof (createTreeWalker_in _ _ _ Hg Hne) as Hin.
  destruct (click_walk_finds _ _ _ 0 k Hin) as (o & Ho).
  destruct (click_walk_some _ _ _ _ _ Ho) as (pre & d' & post & E & _ & ->).
  assert (d' = d).
  { assert (Hin' : In (p, d') (createTreeWalker root))
      by (rewrite E; apply in_elt).
    apply createTreeWalker_get in Hin' as [Hg' _]. congruence. }
  subst d'. exists pre, post. split; [exact E|]. split.
  - rewrite Ho. reflexivity.
  - assert (Hw : concat (map snd (createTreeWalker root)) = textContent root).
    { apply createTreeWalker_text.
      destruct root; [destruct p; [congruence|discriminate] | discriminate]. }
    rewrite <- Hw, E, map_app, concat_app. reflexivity.
Qed.

End ClickFacts.

Import Dom DomFacts ClickToSeek ClickFacts Scenario.



(** X5. Locating inverts clicking: for a click inside a text node, before
    its end, the search loop of the highlight effect, given the offset
    that the click handler computes, stops on the clicked node, with the
    clicked offset as the offset inside it. *)
Theorem locate_inverts_click (v : Viewer) (root : node) (p : path)
    (d : jsstring) (k : nat) :
  container v = Some root ->
  get p root = Some (Text d) -> p <> [] ->
  k < length d ->
  exists o,
    handleContainerClick v (Some (mkSelectionRange (Inside p) k)) = Some o /\
    find_node (createTreeWalker root) 0 o = Some (p, d, (o - Z.of_nat k)%Z) /\
    Z.max 0 (o - (o - Z.of_nat k)) = Z.of_nat k.
Proof.
  intros Hc Hg Hne Hk.
  destruct (click_in_text_node v root p d k Hc Hg Hne)
    as (pre & post & E & Hclick & _).
  exists (total pre + Z.of_nat k)%Z. split; [exact Hclick|].
  assert (Hpos : (0 <= total pre)%Z) by (unfold total; lia).
  split; [|lia].
  rewrite E, find_node_at by lia. do 2 f_equal. lia.
Qed.

Lemma locate_inverts_click_witness :
  exists o,
    handleContainerClick (mkViewer (Some sample_surface) None 0)
      (Some (mkSelectionRange (Inside [0; 1; 0]) 2)) = Some o /\
    find_node (createTreeWalker sample_surface) 0 o =
      Some ([0; 1; 0], js "gamma", (o - Z.of_nat 2)%Z) /\
    Z.max 0 (o - (o - Z.of_nat 2)) = Z.of_nat 2.
Proof.
  apply (locate_inverts_click (mkViewer (Some sample_surface) None 0)
           sample_surface [0; 1; 0] (js "gamma") 2).
  - reflexivity.
  - reflexivity.
  - discriminate.
  - simpl. lia.
Defined.

(** ** Where the mark lands *)

Module MarkFacts.
Import Dom DomFacts ClickFacts.







End MarkFacts.

Import MarkFacts.



(** X7. The highlight depends on the current props only, not on what was
    highlighted before: after any runs on a surface rendered without empty
    or adjacent text nodes, a further run leaves the tree and the reference
    that the same run leaves on the surface as it was rendered. *)
Theorem highlight_forgets_history (root : node)
    (runs : list (bool * Z * bool)) (host : bool) (i : Z) (playing : bool) :
  count_marks root = 0 -> normalized root ->
  exists v' v1 v2,
    run_effects runs (mkViewer (Some root) None 0) = Normal v' /\
    highlightEffect host i playing v' = Normal v1 /\
    highlightEffect host i playing (mkViewer (Some root) None 0) = Normal v2 /\
    container v1 = container v2 /\
    highlightRef v1 = highlightRef v2.
Proof.
  intros Hzero Hn.
  destruct (run_effects_maintains root runs _ (maintained_initially root 0 Hzero))
    as (v' & Hrun & root' & Hc & _ & _ & Hback).
  specialize (Hback Hn).
  destruct (highlightEffect_maintains root host i playing
              (mkViewer (Some root) None 0) (maintained_initially root 0 Hzero))
    as (v2 & He2 & _).
  exists v'. 
  assert (Hsame : forall s,
            highlightEffect host i playing (mkViewer (Some root) None s) =
            match highlightEffect host i playing (mkViewer (Some root) None 0) with
            | Normal x =>
                Normal (mkViewer (container x) (highlightRef x)
                                 (scrolls x + s))
            | Throw e => Throw e
            end).
  { intros s. unfold highlightEffect. cbn [container highlightRef scrolls cleanup].
    destruct ((i <? 0)%Z || negb playing); [reflexivity|].
    destruct (find_node (createTreeWalker root) 0 i) as [[[p d] cc]|];
      [|reflexivity].
    destruct (_ <=? _)%Z; [|reflexivity].
    destruct (setStart d (Z.max 0 (i - cc))) as [r0|]; [|reflexivity].
    cbn [bind]. destruct (setEnd d _ r0) as [r|]; [|reflexivity].
    cbn [bind]. destruct (surroundContents host root p r) as [[root2 mark]|];
      reflexivity. }
  assert (Hv' : highlightEffect host i playing v' =
                highlightEffect host i playing
                  (mkViewer (Some root) None (scrolls v'))).
  { unfold highlightEffect. rewrite Hc. cbn [container highlightRef scrolls cleanup].
    now rewrite Hback. }
  rewrite Hv', Hsame, He2.
  eexists. exists v2. repeat split. exact Hrun.
Qed.

Lemma highlight_forgets_history_witness :
  exists v' v1 v2,
    run_effects [(false, 6%Z, true); (true, 3%Z, true)]
      (mkViewer (Some sample_surface) None 0) = Normal v' /\
    highlightEffect false 11 true v' = Normal v1 /\
    highlightEffect false 11 true (mkViewer (Some sample_surface) None 0) =
      Normal v2 /\
    container v1 = container v2 /\
    highlightRef v1 = highlightRef v2.
Proof.
  apply (highlight_forgets_history sample_surface).
  - reflexivity.
  - vm_compute. repeat split.
Defined.

(** ** More on the narration controls *)

Module NarrationFacts.
Import App AppFacts Reader Narration.

Lemma startReading_speak_iff r o w :
  (exists t, viewerText w = Some t /\ blank (substring_from t o) = false /\
     startReading r o w =
     speak (utterance_for r o t) (set_utteranceRef (utterance_for r o t) (cancel w)))
  \/ queue (synth (startReading r o w)) = []
  \/ startReading r o w = w \/ startReading r o w = alert w.
Proof.
  unfold startReading.
  destruct (file r); [|auto].
  destruct (viewerText w) as [t|] eqn:Et; [|auto].
  destruct (supported w); simpl; [|auto].
  destruct (blank t); [auto|].
  destruct (blank (substring_from t o)) eqn:Eb; [auto|].
  left. exists t. auto.
Qed.

Lemma startReading_reads r o w :
  reads_rendered_text w -> reads_rendered_text (startReading r o w).
Proof.
  intros H.
  destruct (startReading_speak_iff r o w)
    as [(t & Ht & Hb & ->) | [Hq | [-> | ->]]]; try exact H.
  - intros u [<-|[]]. exists t. auto.
  - intros u Hu. rewrite Hq in Hu. destruct Hu.
Qed.

Lemma reads_emptied w' :
  queue (synth w') = [] -> reads_rendered_text w'.
Proof. intros Hq u Hu. rewrite Hq in Hu. destruct Hu. Qed.

Lemma reads_same w w' :
  queue (synth w') = queue (synth w) -> viewerText w' = viewerText w ->
  reads_rendered_text w -> reads_rendered_text w'.
Proof. intros Hq Hv H u Hu. rewrite Hq in Hu. rewrite Hv. now apply H. Qed.

Lemma step_reads i w : reads_rendered_text w -> reads_rendered_text (step i w).
Proof.
  intros H. destruct i; simpl.
  - unfold loadVoices.
    destruct (or_else _ _); [destruct (selectedVoice first_render)|];
      exact H.
  - now apply reads_emptied.
  - now apply startReading_reads.
  - now apply reads_emptied.
  - unfold handleRateChange. destruct (isPlaying (app w));
      [now apply reads_emptied | exact H].
  - unfold handleVoiceChange. destruct (find _ _); [|exact H].
    destruct (isPlaying (app w)); [now apply reads_emptied | exact H].
  - unfold pauseReading. destruct (_ && _); exact H.
  - unfold resumeReading. destruct (paused _); exact H.
  - now apply reads_emptied.
  - now apply reads_emptied.
  - destruct (nth_error (timers w) k); [|exact H].
    apply startReading_reads. exact H.
  - destruct (queue (synth w)) as [|u q] eqn:Eq; [exact H|].
    intros u' Hu'.
    destruct (callback_frame u e (set_synth (engine_progress e (synth w)) w))
      as (Hs & _ & _ & _ & Hv).
    rewrite Hs in Hu'. rewrite Hv. apply H. rewrite Eq.
    destruct e; simpl in Hu'; rewrite ?Eq in Hu'; simpl in Hu'; simpl; tauto.
  - intros u' Hu'.
    destruct (callback_frame u e w) as (Hs & _ & _ & _ & Hv).
    rewrite Hs in Hu'. rewrite Hv. now apply H.
Qed.

Lemma run_reads trace w :
  reads_rendered_text w -> reads_rendered_text (run trace w).
Proof.
  revert w. induction trace as [|i trace IH]; intros w H; [exact H|].
  simpl. apply IH. now apply step_reads.
Qed.

Lemma char_at_substring_from t s c :
  (0 <= s)%Z -> (0 <= c)%Z ->
  char_at (substring_from t s) c = char_at t (s + c).
Proof.
  intros Hs Hc. unfold char_at, substring_from, clamp.
  destruct (c <? 0)%Z eqn:E1; [apply Z.ltb_lt in E1; lia|].
  destruct (s + c <? 0)%Z eqn:E2; [apply Z.ltb_lt in E2; lia|].
  rewrite nth_error_skipn.
  destruct (Nat.le_gt_cases (Z.to_nat s) (length t)) as [Hle|Hgt].
  - rewrite Nat.min_l by lia. f_equal. lia.
  - rewrite Nat.min_r by lia.
    transitivity (@None code_unit); [|symmetry];
      apply nth_error_None; lia.
Qed.

(** A pending timer whose [startReading] gets as far as [speak]. *)
Lemma timer_starts w k tm :
  nth_error (timers w) k = Some tm ->
  starts (closure tm) (argument tm) w ->
  exists t,
    viewerText w = Some t /\
    step (TimerFires k) w =
    speak (utterance_for (closure tm) (argument tm) t)
      (set_utteranceRef (utterance_for (closure tm) (argument tm) t)
         (cancel (set_timers (firstn k (timers w) ++ skipn (S k) (timers w)) w))).
Proof.
  intros Hk (Hf & Hs & t & Ht & Hb & Hbs). exists t. split; [exact Ht|].
  cbn [step]. rewrite Hk. unfold startReading.
  destruct (file (closure tm)); [|congruence].
  change (viewerText (set_timers _ w)) with (viewerText w).
  change (supported (set_timers _ w)) with (supported w).
  now rewrite Ht, Hs, Hb, Hbs.
Qed.

Lemma last_timer (ts : list Timer) tm :
  nth_error (ts ++ [tm]) (length ts) = Some tm /\
  firstn (length ts) (ts ++ [tm]) ++ skipn (S (length ts)) (ts ++ [tm]) = ts.
Proof.
  split.
  - rewrite nth_error_app2, Nat.sub_diag by lia. reflexivity.
  - rewrite firstn_app, Nat.sub_diag, firstn_all, skipn_all2
      by (rewrite length_app; simpl; lia).
    simpl. now rewrite !app_nil_r.
Qed.

End NarrationFacts.

Import App AppFacts Reader Narration NarrationFacts Scenario.

(** X8. Whatever has happened, an utterance the engine holds is not blank
    and its text is the rendered text from the utterance's start offset
    on. *)
Theorem engine_reads_rendered_text (trace : list Input) (u : Utterance) :
  In u (queue (synth (run trace initial))) ->
  exists t,
    viewerText (run trace initial) = Some t /\
    u_text u = substring_from t (startIndex u) /\
    blank (u_text u) = false.
Proof.
  apply (run_reads trace initial). intros u' [].
Qed.

Lemma engine_reads_rendered_text_witness :
  exists t,
    viewerText (run seeking_12 initial) = Some t /\
    u_text (mkUtterance (js "amma") None 1 1 12) =
      substring_from t (startIndex (mkUtterance (js "amma") None 1 1 12)) /\
    blank (u_text (mkUtterance (js "amma") None 1 1 12)) = false.
Proof.
  apply (engine_reads_rendered_text seeking_12). left. reflexivity.
Defined.

(** X9. Narration and position agree on the code unit: when the engine
    reports a word boundary at local index [c] of the utterance it holds,
    started at a non-negative offset, the new [currentWordIndex] points, in
    the rendered text, at the code unit that is at index [c] of the text
    being spoken. *)
Theorem boundary_points_at_spoken_text (trace : list Input) (u : Utterance)
    (c : Z) :
  In u (queue (synth (run trace initial))) ->
  (0 <= startIndex u)%Z -> (0 <= c)%Z ->
  exists t,
    viewerText (run trace initial) = Some t /\
    char_at t (currentWordIndex
                 (app (step (Engine (EvBoundary word c)) (run trace initial)))) =
    char_at (u_text u) c.
Proof.
  intros Hu Hs Hc.
  destruct (run_reads trace initial (fun u' (H : In u' []) => match H with end) u Hu)
    as (t & Ht & Htext & _).
  exists t. split; [exact Ht|].
  assert (H1 : one_stream (run trace initial))
    by (apply run_one_stream; left; reflexivity).
  destruct H1 as [Hq|(u' & Hq & _)]; rewrite Hq in Hu; [destruct Hu|].
  destruct Hu as [->|[]].
  cbn [step]. rewrite Hq. cbn.
  rewrite Htext. symmetry. now apply char_at_substring_from.
Qed.

Lemma boundary_points_at_spoken_text_witness :
  exists t,
    viewerText (run seeking_12 initial) = Some t /\
    char_at t (currentWordIndex
                 (app (step (Engine (EvBoundary word 2)) (run seeking_12 initial)))) =
    char_at (u_text (mkUtterance (js "amma") None 1 1 12)) 2.
Proof.
  apply (boundary_points_at_spoken_text seeking_12).
  - left. reflexivity.
  - vm_compute. discriminate.
  - lia.
Defined.

(** X10. A click that seeks to [o], once its timer has fired, leaves the
    engine with exactly one utterance: the rendered text from [o] on, with
    the rate and voice of the render that was clicked.  The engine has
    been cancelled twice and then asked to speak; the state of the
    session, and so the position shown, is unchanged until the engine
    reports. *)
Theorem seek_restarts_at_offset (w : World) (o : Z) :
  starts (app w) o w ->
  exists t,
    viewerText w = Some t /\
    queue (synth (run [Seek o; TimerFires (length (timers w))] w)) =
      [utterance_for (app w) o t] /\
    calls (run [Seek o; TimerFires (length (timers w))] w) =
      calls w ++ [Cancel; Cancel; Speak (utterance_for (app w) o t)] /\
    app (run [Seek o; TimerFires (length (timers w))] w) = app w /\
    timers (run [Seek o; TimerFires (length (timers w))] w) = timers w.
Proof.
  intros Hs.
  change (run [Seek o; TimerFires (length (timers w))] w)
    with (step (TimerFires (length (timers w)))
            (setTimeout (app w) o 10 (cancel w))).
  set (w1 := setTimeout (app w) o 10 (cancel w)).
  assert (Ht1 : timers w1 = timers w ++ [mkTimer 10 (app w) o]) by reflexivity.
  destruct (last_timer (timers w) (mkTimer 10 (app w) o)) as [Hn Hrest].
  rewrite <- Ht1 in Hn.
  destruct (timer_starts w1 _ _ Hn) as (t & Ht & ->).
  { destruct Hs as (Hf & Hsup & t & Ht & Hb & Hbs).
    split; [exact Hf|]. split; [exact Hsup|]. exists t. auto. }
  exists t. split; [exact Ht|]. rewrite Ht1, Hrest.
  repeat split. cbn. now rewrite <- !app_assoc.
Qed.

Lemma seek_restarts_at_offset_witness :
  exists t,
    viewerText (run reading_beta initial) = Some t /\
    queue (synth (run [Seek 12; TimerFires 0] (run reading_beta initial))) =
      [utterance_for (app (run reading_beta initial)) 12 t].
Proof.
  destruct (seek_restarts_at_offset (run reading_beta initial) 12)
    as (t & Ht & Hq & _).
  - split; [discriminate|]. split; [reflexivity|].
    exists alpha_beta_gamma. repeat split.
  - exists t. split; [exact Ht | exact Hq].
Defined.

(** X11. Replay, once its timer has fired, leaves the session idle with
    no position, and the engine with exactly one utterance: the whole
    rendered text, read from offset 0. *)
Theorem replay_restarts_from_zero (w : World) :
  starts (app w) 0 w ->
  exists t,
    viewerText w = Some t /\
    queue (synth (run [Replay; TimerFires (length (timers w))] w)) =
      [mkUtterance t (selectedVoice (app w)) (rate (app w)) 1 0] /\
    status (app (run [Replay; TimerFires (length (timers w))] w)) = Idle /\
    currentWordIndex (app (run [Replay; TimerFires (length (timers w))] w)) =
      (-1)%Z.
Proof.
  intros Hs.
  change (run [Replay; TimerFires (length (timers w))] w)
    with (step (TimerFires (length (timers w)))
            (setTimeout (app w) 0 100 (stopReading w))).
  set (w1 := setTimeout (app w) 0 100 (stopReading w)).
  assert (Ht1 : timers w1 = timers w ++ [mkTimer 100 (app w) 0]) by reflexivity.
  destruct (last_timer (timers w) (mkTimer 100 (app w) 0)) as [Hn Hrest].
  rewrite <- Ht1 in Hn.
  destruct (timer_starts w1 _ _ Hn) as (t & Ht & ->).
  { destruct Hs as (Hf & Hsup & t & Ht & Hb & Hbs).
    split; [exact Hf|]. split; [exact Hsup|]. exists t. auto. }
  exists t. split; [exact Ht|]. repeat split.
Qed.

Lemma replay_restarts_from_zero_witness :
  exists t,
    viewerText (run reading_beta initial) = Some t /\
    queue (synth (run [Replay; TimerFires 0] (run reading_beta initial))) =
      [mkUtterance t None 1 1 0].
Proof.
  destruct (replay_restarts_from_zero (run reading_beta initial))
    as (t & Ht & Hq & _).
  - split; [discriminate|]. split; [reflexivity|].
    exists alpha_beta_gamma. repeat split.
  - exists t. split; [exact Ht | exact Hq].
Defined.

(** X12. Stop leaves pending timers in place: a restart that was scheduled
    before Stop (by a seek, a replay or a rate or voice change) still runs
    when its timer fires, and the engine speaks again although the session
    was stopped. *)
Theorem stop_keeps_pending_restart (w : World) (k : nat) (tm : Timer) :
  nth_error (timers w) k = Some tm ->
  starts (closure tm) (argument tm) w ->
  timers (stopReading w) = timers w /\
  status (app (stopReading w)) = Idle /\
  queue (synth (stopReading w)) = [] /\
  exists t,
    viewerText w = Some t /\
    queue (synth (run [Stop; TimerFires k] w)) =
      [utterance_for (closure tm) (argument tm) t].
Proof.
  intros Hk Hs. repeat split.
  change (run [Stop; TimerFires k] w)
    with (step (TimerFires k) (stopReading w)).
  destruct (timer_starts (stopReading w) k tm Hk) as (t & Ht & ->).
  { destruct Hs as (Hf & Hsup & t & Ht & Hb & Hbs).
    split; [exact Hf|]. split; [exact Hsup|]. exists t. auto. }
  exists t. split; [exact Ht | reflexivity].
Qed.

Lemma stop_keeps_pending_restart_witness :
  timers (stopReading (run (reading_beta ++ [Seek 12]) initial)) =
    timers (run (reading_beta ++ [Seek 12]) initial) /\
  status (app (stopReading (run (reading_beta ++ [Seek 12]) initial))) = Idle /\
  queue (synth (stopReading (run (reading_beta ++ [Seek 12]) initial))) = [] /\
  exists t,
    viewerText (run (reading_beta ++ [Seek 12]) initial) = Some t /\
    queue (synth (run [Stop; TimerFires 0]
                    (run (reading_beta ++ [Seek 12]) initial))) =
      [utterance_for (closure (mkTimer 10 (app (run reading_beta initial)) 12))
         (argument (mkTimer 10 (app (run reading_beta initial)) 12)) t].
Proof.
  apply (stop_keeps_pending_restart (run (reading_beta ++ [Seek 12]) initial) 0
           (mkTimer 10 (app (run reading_beta initial)) 12)).
  - vm_compute. reflexivity.
  - split; [vm_compute; discriminate|]. split; [vm_compute; reflexivity|].
    exists alpha_beta_gamma. repeat split; vm_compute; reflexivity.
Defined.

(** X13. Nothing but the callbacks of an utterance moves the position or
    turns playing on: a user action, a voice list, an upload or a timer
    leaves [currentWordIndex] as it is or resets it to -1, and never sets
    [isPlaying]. *)
Theorem only_callbacks_move_position (i : Input) (w : World) :
  (forall e, i <> Engine e) -> (forall u e, i <> Late u e) ->
  (currentWordIndex (app (step i w)) = currentWordIndex (app w) \/
   currentWordIndex (app (step i w)) = (-1)%Z) /\
  (isPlaying (app (step i w)) = true -> isPlaying (app w) = true).
Proof.
  intros He Hl.
  assert (Hstart : forall r o w0,
            app (startReading r o w0) = app w0).
  { intros r o w0.
    destruct (startReading_cases r o w0) as [->|[->|[->|(t & _ & ->)]]];
      reflexivity. }
  assert (Hdone : forall w' : World,
            app w' = app w ->
            (currentWordIndex (app w') = currentWordIndex (app w) \/
             currentWordIndex (app w') = (-1)%Z) /\
            (isPlaying (app w') = true -> isPlaying (app w) = true)).
  { intros w' ->. auto. }
  destruct i; simpl.
  - unfold loadVoices.
    destruct (or_else _ _); [destruct (selectedVoice first_render)|];
      split; simpl; auto.
  - split; [right; reflexivity | discriminate].
  - apply Hdone, Hstart.
  - now apply Hdone.
  - unfold handleRateChange. destruct (isPlaying (app w)) eqn:Ep;
      split; simpl; auto; congruence.
  - unfold handleVoiceChange. destruct (find _ _); [|now apply Hdone].
    destruct (isPlaying (app w)) eqn:Ep; split; simpl; auto; congruence.
  - unfold pauseReading. destruct (_ && _); now apply Hdone.
  - unfold resumeReading. destruct (paused _); now apply Hdone.
  - split; [right; reflexivity | discriminate].
  - split; [right; reflexivity | discriminate].
  - destruct (nth_error (timers w) k); [|now apply Hdone].
    apply Hdone. now rewrite Hstart.
  - now destruct (He e).
  - now destruct (Hl u e).
Qed.

Lemma only_callbacks_move_position_witness :
  (currentWordIndex (app (step (Seek 12) (run reading_beta initial))) =
     currentWordIndex (app (run reading_beta initial)) \/
   currentWordIndex (app (step (Seek 12) (run reading_beta initial))) = (-1)%Z).
Proof.
  apply (only_callbacks_move_position (Seek 12) (run reading_beta initial));
    discriminate.
Defined.

(** ** Voices, files and layout *)

Module ChromeFacts.
Import App Chrome.

Lemma starts_with_spec p s :
  starts_with p s = true <-> exists t, s = p ++ t.
Proof.
  revert s. induction p as [|a p IH]; intros s; simpl.
  - split; [now exists s | reflexivity].
  - destruct s as [|b s].
    + split; [discriminate | intros [t H]; discriminate].
    + rewrite andb_true_iff, N.eqb_eq, IH. split.
      * intros [-> [t ->]]. now exists t.
      * intros [t H]. injection H as -> ->. split; [reflexivity | now exists t].
Qed.

Lemma ends_with_spec suffix s :
  ends_with suffix s = true <-> exists stem, s = stem ++ suffix.
Proof.
  unfold ends_with. rewrite starts_with_spec. split.
  - intros [t H]. exists (rev t).
    rewrite <- (rev_involutive s), H, rev_app_distr, rev_involutive.
    reflexivity.
  - intros [stem ->]. exists (rev stem). now rewrite rev_app_distr.
Qed.

Lemma processFile_refused fileName content rendered w :
  ends_with (js ".md") fileName = false ->
  processFile fileName content rendered w = alert w.
Proof. unfold processFile. now intros ->. Qed.

Lemma processFile_accepted fileName content rendered w :
  ends_with (js ".md") fileName = true ->
  processFile fileName content rendered w =
  set_viewerText (Some rendered) (handleFileUpload content fileName w).
Proof. unfold processFile. now intros ->. Qed.

End ChromeFacts.

Import App Chrome ChromeFacts Scenario.

(** X14. When the engine announces a non-empty list of voices, the list is
    stored and the selected voice becomes a voice of that list, whatever
    voice was selected before: one whose name contains
    [Google US English] if the list has one, otherwise one whose language
    starts with [en] if the list has one. *)
Theorem voices_changed_selects_preferred
    (vs : list SpeechSynthesisVoice) (w : World) :
  vs <> [] ->
  voices (app (step (VoicesChanged vs) w)) = vs /\
  exists v,
    selectedVoice (app (step (VoicesChanged vs) w)) = Some v /\
    In v vs /\
    (forall u, In u vs ->
       includes (js "Google US English") (name u) = true ->
       includes (js "Google US English") (name v) = true) /\
    (forall u, In u vs ->
       starts_with (js "en") (lang u) = true ->
       includes (js "Google US English") (name v) = true \/
       starts_with (js "en") (lang v) = true).
Proof.
  intros Hvs. cbn [step]. unfold loadVoices.
  change (selectedVoice first_render) with (@None SpeechSynthesisVoice).
  destruct (find (fun v => includes (js "Google US English") (name v)) vs)
    as [g|] eqn:Hg.
  - cbn [or_else]. split; [reflexivity|]. exists g.
    apply find_some in Hg as [Hin Hname].
    repeat split; auto.
  - cbn [or_else].
    destruct (find (fun v => starts_with (js "en") (lang v)) vs)
      as [e|] eqn:He.
    + split; [reflexivity|]. exists e.
      apply find_some in He as [Hin Hlang].
      repeat split; auto.
      intros u Hu Hn. now rewrite (find_none _ _ Hg u Hu) in Hn.
    + destruct vs as [|v0 vs']; [now destruct Hvs|].
      cbn [hd_error]. split; [reflexivity|]. exists v0.
      repeat split.
      * now left.
      * intros u Hu Hn. now rewrite (find_none _ _ Hg u Hu) in Hn.
      * intros u Hu Hn. now rewrite (find_none _ _ He u Hu) in Hn.
Qed.

Lemma voices_changed_selects_preferred_witness :
  voices (app (step (VoicesChanged [french; english])
                    (run voice_changed_at_beta initial))) =
  [french; english].
Proof.
  apply (voices_changed_selects_preferred [french; english]
           (run voice_changed_at_beta initial)).
  discriminate.
Defined.

(** X15. After any sequence of files given to the uploader, the alerts
    shown are one for each file whose name does not end in [.md], and the
    open file is either the one that was open before, with the viewer
    untouched, or one of the given files whose name is some stem followed
    by [.md], with the viewer showing its rendering. *)
Theorem only_markdown_files_are_opened
    (files : list (jsstring * jsstring * jsstring)) (w : World) :
  alerts (drop_files files w) =
    alerts w +
    length (filter (fun f => negb (ends_with (js ".md") (fst (fst f)))) files)
  /\
  ((file (app (drop_files files w)) = file (app w) /\
    viewerText (drop_files files w) = viewerText w) \/
   exists stem content rendered,
     In (stem ++ js ".md", content, rendered) files /\
     file (app (drop_files files w)) =
       Some (mkFile (stem ++ js ".md") content) /\
     viewerText (drop_files files w) = Some rendered).
Proof.
  revert w. induction files as [|[[fileName content] rendered] files IH];
    intros w.
  - simpl. split; [lia | left; split; reflexivity].
  - change (drop_files ((fileName, content, rendered) :: files) w)
      with (drop_files files (processFile fileName content rendered w)).
    destruct (IH (processFile fileName content rendered w)) as [Ha Hf].
    cbn [filter fst snd].
    destruct (ends_with (js ".md") fileName) eqn:Hmd.
    + rewrite processFile_accepted in * by assumption.
      cbn [negb]. split; [rewrite Ha; reflexivity|].
      right. destruct Hf as [[Hfile Hview]|(stem & c & rd & Hin & Hfile & Hview)].
      * apply ends_with_spec in Hmd as [stem ->].
        exists stem, content, rendered.
        split; [now left|]. split; [rewrite Hfile | rewrite Hview]; reflexivity.
      * exists stem, c, rd. split; [now right | now split].
    + rewrite processFile_refused in * by assumption.
      cbn [negb length]. split; [rewrite Ha; simpl; lia|].
      destruct Hf as [[Hfile Hview]|(stem & c & rd & Hin & Hfile & Hview)].
      * left. split; [rewrite Hfile | rewrite Hview]; reflexivity.
      * right. exists stem, c, rd. split; [now right | now split].
Qed.

(** X16. The width button goes round the four widths: from any width
    every width is reached in fewer than four clicks, four clicks come
    back to the start, and no two widths carry the same label. *)
Theorem width_cycle_visits_all (a b : ContentWidth) :
  (exists k, k < 4 /\ Nat.iter k cycleWidth a = b) /\
  Nat.iter 4 cycleWidth a = a /\
  (getWidthLabel a = getWidthLabel b -> a = b).
Proof.
  split; [|split].
  - destruct a, b;
      first [ exists 0; split; [lia | reflexivity]
            | exists 1; split; [lia | reflexivity]
            | exists 2; split; [lia | reflexivity]
            | exists 3; split; [lia | reflexivity] ].
  - now destruct a.
  - destruct a, b; simpl; intros H; try reflexivity; discriminate H.
Qed.

(** ** The assistant panel *)

Module GeminiFacts.
Import Gemini.

Lemma takes_turns_snoc e ms m :
  takes_turns e (ms ++ [m]) <->
  takes_turns e ms /\
  role m = if Nat.even (length ms) then e
           else match e with user => model | model => user end.
Proof.
  revert e. induction ms as [|a ms IH]; intros e.
  - simpl. tauto.
  - rewrite <- app_comm_cons. cbn [takes_turns length]. rewrite IH.
    rewrite Nat.even_succ, <- Nat.negb_even.
    destruct (Nat.even (length ms)), e; simpl; tauto.
Qed.

Lemma text_or_truthy t fallback :
  truthy fallback = true -> truthy (text_or t fallback) = true.
Proof.
  intros H. unfold text_or. destruct t as [t|]; [|exact H].
  destruct (truthy t) eqn:E; [exact E | exact H].
Qed.

Lemma generateSummary_truthy o : truthy (generateSummary o) = true.
Proof. destruct o; [apply text_or_truthy|]; reflexivity. Qed.

Lemma chatWithDocument_truthy o : truthy (chatWithDocument o) = true.
Proof. destruct o; [apply text_or_truthy|]; reflexivity. Qed.

Lemma panel_run_snoc doc trace e p :
  panel_run doc (trace ++ [e]) p = panel_step doc e (panel_run doc trace p).
Proof. unfold panel_run. now rewrite fold_left_app. Qed.

Lemma panel_step_orderly doc e p :
  orderly doc p -> orderly doc (panel_step doc e p).
Proof.
  unfold orderly. intros H. destruct e; cbn [panel_step].
  - exact H.
  - unfold handleSendMessage.
    destruct (isChatLoading p) eqn:El.
    + rewrite orb_true_r. now rewrite El.
    + rewrite orb_false_r. destruct (blank (inputValue p)) eqn:Eb.
      * now rewrite El.
      * cbn. destruct H as (Hc & Ht & Hev).
        exists (messages p), (inputValue p). rewrite Hc. auto.
  - unfold chat_returns. destruct (isChatLoading p) eqn:El.
    + destruct H as (earlier & q & Hm & Hcall & Ht & Hev & Hq).
      rewrite Hcall. cbn. split; [reflexivity|].
      rewrite Hm. split.
      * apply takes_turns_snoc. split.
        -- apply takes_turns_snoc. split; [exact Ht|].
           now rewrite Hev.
        -- rewrite length_app, Nat.add_1_r, Nat.even_succ,
             <- Nat.negb_even, Hev. reflexivity.
      * rewrite !length_app. cbn [length].
        replace (length earlier + 1 + 1) with (S (S (length earlier)))
          by lia.
        exact Hev.
    + destruct H as (Hc & Ht & Hev). rewrite Hc, El. auto.
  - exact H.
  - unfold summary_returns. destruct (summary_calls p); exact H.
Qed.

Lemma panel_step_legible doc e p :
  legible p -> legible (panel_step doc e p).
Proof.
  unfold legible. intros [Hs Hm]. destruct e; cbn [panel_step].
  - split; assumption.
  - unfold handleSendMessage.
    destruct (blank (inputValue p)) eqn:Eb; [split; assumption|].
    destruct (isChatLoading p); [split; assumption|].
    cbn. split; [assumption|].
    intros m [Hin | [<- | []]]%in_app_or; [now apply Hm | exact Eb].
  - unfold chat_returns. destruct (chat_calls p); [split; assumption|].
    cbn. split; [assumption|].
    intros m [Hin | [<- | []]]%in_app_or; [now apply Hm|].
    apply chatWithDocument_truthy.
  - split; assumption.
  - unfold summary_returns. destruct (summary_calls p); [split; assumption|].
    cbn. split; [|assumption].
    intros s [= <-]. apply generateSummary_truthy.
Qed.

Lemma panel_run_orderly doc trace :
  orderly doc (panel_run doc trace panel_initial).
Proof.
  induction trace as [|e trace IH] using rev_ind.
  - cbn. repeat split.
  - rewrite panel_run_snoc. now apply panel_step_orderly.
Qed.

End GeminiFacts.

Import Gemini GeminiFacts.

(** X17. However the panel is used, the conversation alternates between
    the user and the model, the user first; a question is pending exactly
    when the number of messages is odd, and then exactly one call of the
    service is pending, made for the document of the panel with the last
    message as its non-blank question and the messages before it as its
    history; otherwise no call is pending. *)
Theorem conversation_takes_turns (doc : jsstring) (trace : list PanelEvent) :
  takes_turns user (messages (panel_run doc trace panel_initial)) /\
  Nat.odd (length (messages (panel_run doc trace panel_initial))) =
    isChatLoading (panel_run doc trace panel_initial) /\
  length (chat_calls (panel_run doc trace panel_initial)) =
    (if isChatLoading (panel_run doc trace panel_initial) then 1 else 0) /\
  (forall c, In c (chat_calls (panel_run doc trace panel_initial)) ->
     documentContent c = doc /\
     blank (question c) = false /\
     exists earlier,
       messages (panel_run doc trace panel_initial) =
         earlier ++ [mkMessage user (question c)] /\
       history c =
         map (fun m => mkHistoryItem (role m) [msg_text m]) earlier).
Proof.
  pose proof (panel_run_orderly doc trace) as H. unfold orderly in H.
  destruct (isChatLoading (panel_run doc trace panel_initial)).
  - destruct H as (earlier & q & -> & -> & Ht & Hev & Hq).
    split; [|split; [|split]].
    + apply takes_turns_snoc. split; [exact Ht | now rewrite Hev].
    + rewrite length_app, Nat.add_1_r, Nat.odd_succ. exact Hev.
    + reflexivity.
    + intros c [<- | []]. cbn. repeat split; try assumption.
      now exists earlier.
  - destruct H as (-> & Ht & Hev).
    split; [exact Ht|]. split; [|split; [reflexivity | intros c []]].
    now rewrite <- Nat.negb_even, Hev.
Qed.

(** X18. However the panel is used and whatever the service does,
    answering with a text, with an empty or missing text, or failing, the
    summary is either absent or a non-empty text, every message of the
    model is a non-empty text, and every message of the user is not
    blank. *)
Theorem assistant_text_never_empty (doc : jsstring) (trace : list PanelEvent) :
  (forall s, summary (panel_run doc trace panel_initial) = Some s ->
     s <> []) /\
  (forall m, In m (messages (panel_run doc trace panel_initial)) ->
     match role m with
     | user => blank (msg_text m) = false
     | model => msg_text m <> []
     end).
Proof.
  assert (H : legible (panel_run doc trace panel_initial)).
  { induction trace as [|e trace IH] using rev_ind.
    - split; [discriminate | intros m []].
    - rewrite panel_run_snoc. now apply panel_step_legible. }
  destruct H as [Hs Hm]. split.
  - intros s E ->. now specialize (Hs _ E).
  - intros m Hin. specialize (Hm m Hin). destruct (role m); [exact Hm|].
    now intros E; rewrite E in Hm.
Qed.
